(** * winroute: route aggregation, filtering and batch deletion

    A shallow embedding of the Go package [winroute] (route.go, the
    interface cache and the data types), with the operating system
    (package winipcfg) kept abstract: every OS entry point is a field of
    the record [OS], every call is logged in a trace, and the program is
    written in a small state monad over the OS world and that trace. *)

From Stdlib Require Import ZArith Ascii String List Bool Lia.
From stdpp Require Import base option list gmap strings fin_maps.
Import ListNotations.

Local Open Scope Z_scope.

(** ** Data model *)

(** [netip.Addr] and [netip.Prefix]: comparable values.  Only equality is
    used by the package. *)
Inductive Addr :=
  | Addr4 (a : Z)
  | Addr6 (a : Z).

Record Prefix := mkPrefix { prefix_addr : Addr; prefix_bits : Z }.

Definition Addr_eqb (a b : Addr) : bool :=
  match a, b with
  | Addr4 x, Addr4 y => x =? y
  | Addr6 x, Addr6 y => x =? y
  | _, _ => false
  end.

Definition Prefix_eqb (p q : Prefix) : bool :=
  Addr_eqb (prefix_addr p) (prefix_addr q) && (prefix_bits p =? prefix_bits q).

(** [type Interface struct] *)
Record Interface := mkInterface {
  Index : Z;              (* uint32 *)
  LUID : Z;               (* winipcfg.LUID, uint64 *)
  Alias : string;
  Description : string
}.

(** [*Interface].  An [Interface] is never written after its allocation, so
    a pointer is its address together with the object it points to.  Two
    pointers are the same pointer when their addresses agree. *)
Record InterfacePtr := mkPtr { ptr_addr : nat; ptr_obj : Interface }.

(** [type Route struct] *)
Record Route := mkRoute {
  Destination : Prefix;
  NextHop : Addr;
  RInterface : InterfacePtr;
  Metric : Z;             (* uint32 *)
  Protocol : Z;
  Origin : Z
}.

(** [winipcfg.IPAdapterAddresses], the fields and accessors the package reads. *)
Record Adapter := mkAdapter {
  IfIndex : Z;
  AdapterLUID : Z;
  FriendlyName : string;
  AdapterDescription : string
}.

(** [winipcfg.MibIPforwardRow2], with [DestinationPrefix.Prefix()] and
    [NextHop.Addr()] already converted. *)
Record MibIPforwardRow2 := mkRow {
  InterfaceLUID : Z;
  DestinationPrefix : Prefix;
  RowNextHop : Addr;
  RowMetric : Z;
  RowProtocol : Z;
  RowOrigin : Z
}.

(** ** Errors *)

Inductive fmtarg :=
  | ArgString (s : string)
  | ArgPrefix (p : Prefix)
  | ArgType (t : string).

(** Go [error] values: [windows.Errno], the package's two sentinels, and
    [fmt.Errorf] with its format and its arguments: [Errorf] for a format
    without [%w], [ErrorfW] for a format whose last verb [%w] wraps
    [wrapped]. *)
Inductive error :=
  | Errno (code : Z)
  | ErrNotFound
  | ErrAmbiguousMatch
  | Errorf (format : string) (args : list fmtarg)
  | ErrorfW (format : string) (args : list fmtarg) (wrapped : error).

Definition ERROR_ACCESS_DENIED : Z := 5.
Definition ERROR_NOT_FOUND : Z := 1168.
Definition ERROR_OBJECT_ALREADY_EXISTS : Z := 5010.

(** [errors.Is(err, errno)]: walks the [%w] chain. *)
Fixpoint errors_Is_Errno (e : error) (code : Z) : bool :=
  match e with
  | Errno c => c =? code
  | ErrorfW _ _ w => errors_Is_Errno w code
  | _ => false
  end.

(** A Go [(T, error)] result. *)
Inductive result (A : Type) :=
  | Ok (a : A)
  | Err (e : error).
Arguments Ok {A} a.
Arguments Err {A} e.

(** ** strconv.ParseUint(s, 10, 32) *)

Definition maxVal32 : Z := 2 ^ 32 - 1.
Definition cutoff10 : Z := (2 ^ 64 - 1) / 10 + 1.

(** The digit loop.  [n] never exceeds [maxVal32], so the 64-bit
    wrap-around of [n * 10 + d] cannot occur. *)
Fixpoint ParseUint_loop (s : string) (n : Z) : option Z :=
  match s with
  | EmptyString => Some n
  | String c s' =>
      let b := Z.of_N (N_of_ascii c) in
      if (48 <=? b) && (b <=? 57) then
        let d := b - 48 in
        if cutoff10 <=? n then None
        else
          let n1 := n * 10 + d in
          if maxVal32 <? n1 then None else ParseUint_loop s' n1
      else None
  end.

Definition ParseUint32 (s : string) : option Z :=
  match s with
  | EmptyString => None
  | _ => ParseUint_loop s 0
  end.

(** [uint32(x)] *)
Definition uint32 (x : Z) : Z := x mod 2 ^ 32.

(** ** The operating system *)

(** One constructor per winipcfg entry point the package calls. *)
Inductive OsCall :=
  | CallGetAdaptersAddresses
  | CallGetIPForwardTable2
  | CallLUIDFromIndex (index : Z)
  | CallAddRoute (luid : Z) (dest : Prefix) (nextHop : Addr) (metric : Z)
  | CallDeleteRoute (luid : Z) (dest : Prefix) (nextHop : Addr).

(** The OS over a world of type [World]: queries read the world, the two
    mutations return the next world and the call's error, if any. *)
Record OS (World : Type) := mkOS {
  os_GetAdaptersAddresses : World -> result (list Adapter);
  os_GetIPForwardTable2 : World -> result (list MibIPforwardRow2);
  os_LUIDFromIndex : World -> Z -> result Z;
  os_AddRoute : World -> Z -> Prefix -> Addr -> Z -> World * option error;
  os_DeleteRoute : World -> Z -> Prefix -> Addr -> World * option error
}.
Arguments os_GetAdaptersAddresses {World} _ _.
Arguments os_GetIPForwardTable2 {World} _ _.
Arguments os_LUIDFromIndex {World} _ _ _.
Arguments os_AddRoute {World} _ _ _ _ _ _.
Arguments os_DeleteRoute {World} _ _ _ _ _.

(** The state threaded through the program: the OS world and the calls
    made so far, oldest first. *)
Record St (World : Type) := mkSt { world : World; trace : list OsCall }.
Arguments mkSt {World} _ _.
Arguments world {World} _.
Arguments trace {World} _.

Definition M (World A : Type) : Type := St World -> A * St World.

Definition ret {World A} (a : A) : M World A := fun s => (a, s).

Definition bind {World A B} (m : M World A) (k : A -> M World B) : M World B :=
  fun s => let (a, s') := m s in k a s'.

Notation "'let*' x ':=' m 'in' k" := (bind m (fun x => k))
  (at level 10, x pattern, m at level 100, k at level 200).

(** ** The interface cache *)

Record interfaceCache := mkCache {
  byLUID : gmap Z InterfacePtr;
  byIndex : gmap Z InterfacePtr;
  byAlias : gmap string InterfacePtr
}.

Definition emptyCache : interfaceCache :=
  {| byLUID := ∅; byIndex := ∅; byAlias := ∅ |}.

Section Cache.

(** [strings.ToLower], from Go's standard library. *)
Variable ToLower : string -> string.

(** One iteration of the loop of [newInterfaceCache]; [p] is the address
    of the [Interface] allocated by this iteration. *)
Definition cache_step (cache : interfaceCache) (p : nat) (adapter : Adapter)
  : interfaceCache :=
  let iface :=
    {| ptr_addr := p;
       ptr_obj := {| Index := IfIndex adapter;
                     LUID := AdapterLUID adapter;
                     Alias := FriendlyName adapter;
                     Description := AdapterDescription adapter |} |} in
  {| byLUID := <[LUID (ptr_obj iface) := iface]> (byLUID cache);
     byIndex := <[Index (ptr_obj iface) := iface]> (byIndex cache);
     byAlias :=
       match byAlias cache !! ToLower (Alias (ptr_obj iface)) with
       | Some _ => byAlias cache
       | None => <[ToLower (Alias (ptr_obj iface)) := iface]> (byAlias cache)
       end |}.

Fixpoint cache_loop (adapters : list Adapter) (p : nat) (cache : interfaceCache)
  : interfaceCache :=
  match adapters with
  | [] => cache
  | adapter :: rest => cache_loop rest (S p) (cache_step cache p adapter)
  end.

(** The cache built from an adapter list: the [i]-th adapter's
    [Interface] lives at address [i]. *)
Definition build_cache (adapters : list Adapter) : interfaceCache :=
  cache_loop adapters 0%nat emptyCache.

(** [func (c *interfaceCache) findInterface(identifier string)] *)
Definition findInterface (c : interfaceCache) (identifier : string)
  : result InterfacePtr :=
  let by_index :=
    match ParseUint32 identifier with
    | Some index => byIndex c !! uint32 index
    | None => None
    end in
  match by_index with
  | Some iface => Ok iface
  | None =>
      match byAlias c !! ToLower identifier with
      | Some iface => Ok iface
      | None =>
          Err (ErrorfW "interface '%s' not found: %w"
                       [ArgString identifier] ErrNotFound)
      end
  end.

End Cache.

(** ** Filters *)

(** [type FilterOption func(r *Route) bool] *)
Definition FilterOption : Type := Route -> bool.

Definition WithDestinationPrefix (prefix : Prefix) : FilterOption :=
  fun r => Prefix_eqb (Destination r) prefix.

Definition WithInterfaceIndex (index : Z) : FilterOption :=
  fun r => Index (ptr_obj (RInterface r)) =? index.

Definition WithInterfaceAlias (EqualFold : string -> string -> bool) (alias : string)
  : FilterOption :=
  fun r => EqualFold (Alias (ptr_obj (RInterface r))) alias.

Definition WithMetric (metric : Z) : FilterOption :=
  fun r => Metric r =? metric.

(** The inner loop of [GetRoutes]: [matches] starts [true] and the loop
    breaks at the first filter that rejects the route. *)
Fixpoint matches_loop (filters : list FilterOption) (route : Route) : bool :=
  match filters with
  | [] => true
  | filter :: rest =>
      if negb (filter route) then false else matches_loop rest route
  end.

(** The enriched route built for a raw row and its interface. *)
Definition enrich (baseRoute : MibIPforwardRow2) (iface : InterfacePtr) : Route :=
  {| Destination := DestinationPrefix baseRoute;
     NextHop := RowNextHop baseRoute;
     RInterface := iface;
     Metric := RowMetric baseRoute;
     Protocol := RowProtocol baseRoute;
     Origin := RowOrigin baseRoute |}.

(** The outer loop of [GetRoutes], [routes] being the slice appended to. *)
Fixpoint routes_loop (cache : interfaceCache) (filters : list FilterOption)
    (baseRoutes : list MibIPforwardRow2) (routes : list Route) : list Route :=
  match baseRoutes with
  | [] => routes
  | baseRoute :: rest =>
      match byLUID cache !! InterfaceLUID baseRoute with
      | None => routes_loop cache filters rest routes
      | Some iface =>
          let route := enrich baseRoute iface in
          if matches_loop filters route
          then routes_loop cache filters rest (routes ++ [route])
          else routes_loop cache filters rest routes
      end
  end.

(** ** Options of DeleteRoutes *)

(** [type ErrorAction int] *)
Definition ErrorAction : Type := Z.
Definition ErrorActionContinue : ErrorAction := 0.
Definition ErrorActionStop : ErrorAction := 1.

(** An element of [opts ...any], by dynamic type; [AnyOther T] is a value
    of any other type, [T] being what [%T] prints for it. *)
Inductive any :=
  | AnyFilterOption (o : FilterOption)
  | AnyErrorAction (o : ErrorAction)
  | AnyOther (T : string).

Fixpoint extract_loop (opts : list any) (filters : list FilterOption)
    (errorAction : ErrorAction)
    : list FilterOption * ErrorAction * option error :=
  match opts with
  | [] => (filters, errorAction, None)
  | opt :: rest =>
      match opt with
      | AnyFilterOption o => extract_loop rest (filters ++ [o]) errorAction
      | AnyErrorAction o => extract_loop rest filters o
      | AnyOther T =>
          ([], 0, Some (Errorf "unsupported option type: %T" [ArgType T]))
      end
  end.

(** [func extractRouteParameters(opts ...any)] *)
Definition extractRouteParameters (opts : list any)
  : list FilterOption * ErrorAction * option error :=
  extract_loop opts [] ErrorActionContinue.

(** ** The program *)

Section Program.

Context {World : Type} (os : OS World).
Variable ToLower : string -> string.

(** The OS calls, each logged in the trace. *)
Definition log (c : OsCall) (w : World) (s : St World) : St World :=
  mkSt w (trace s ++ [c]).

Definition call_GetAdaptersAddresses : M World (result (list Adapter)) :=
  fun s => (os_GetAdaptersAddresses os (world s),
            log CallGetAdaptersAddresses (world s) s).

Definition call_GetIPForwardTable2 : M World (result (list MibIPforwardRow2)) :=
  fun s => (os_GetIPForwardTable2 os (world s),
            log CallGetIPForwardTable2 (world s) s).

Definition call_LUIDFromIndex (index : Z) : M World (result Z) :=
  fun s => (os_LUIDFromIndex os (world s) index,
            log (CallLUIDFromIndex index) (world s) s).

Definition call_AddRoute (luid : Z) (dest : Prefix) (nextHop : Addr) (metric : Z)
  : M World (option error) :=
  fun s => let (w, e) := os_AddRoute os (world s) luid dest nextHop metric in
           (e, log (CallAddRoute luid dest nextHop metric) w s).

Definition call_DeleteRoute (luid : Z) (dest : Prefix) (nextHop : Addr)
  : M World (option error) :=
  fun s => let (w, e) := os_DeleteRoute os (world s) luid dest nextHop in
           (e, log (CallDeleteRoute luid dest nextHop) w s).

(** [func newInterfaceCache()], returning the cache or an error. *)
Definition newInterfaceCache : M World (result interfaceCache) :=
  let* r := call_GetAdaptersAddresses in
  match r with
  | Err err => ret (Err (ErrorfW "failed to get adapters addresses: %w" [] err))
  | Ok adapters => ret (Ok (build_cache ToLower adapters))
  end.

(** [func GetRoutes(filters ...FilterOption) ([]*Route, error)] *)
Definition GetRoutes (filters : list FilterOption) : M World (result (list Route)) :=
  let* c := newInterfaceCache in
  match c with
  | Err err => ret (Err (ErrorfW "failed to build interface cache: %w" [] err))
  | Ok cache =>
      let* b := call_GetIPForwardTable2 in
      match b with
      | Err err => ret (Err (ErrorfW "failed to get base routing table: %w" [] err))
      | Ok baseRoutes => ret (Ok (routes_loop cache filters baseRoutes []))
      end
  end.

(** [func AddRoute(destination, nextHop, ifaceIndex, metric) error] *)
Definition AddRoute (destination : Prefix) (nextHop : Addr) (ifaceIndex metric : Z)
  : M World (option error) :=
  let* r := call_LUIDFromIndex ifaceIndex in
  match r with
  | Err err =>
      ret (Some (ErrorfW "failed to convert interface index to LUID: %w" [] err))
  | Ok luid =>
      let* e := call_AddRoute luid destination nextHop metric in
      match e with
      | Some err =>
          if errors_Is_Errno err ERROR_OBJECT_ALREADY_EXISTS
          then ret (Some (ErrorfW "route to %s already exists: %w"
                                  [ArgPrefix destination] err))
          else ret (Some (ErrorfW "failed to create route: %w" [] err))
      | None => ret None
      end
  end.

(** [func DeleteRoute(destination, nextHop, ifaceIndex) error] *)
Definition DeleteRoute (destination : Prefix) (nextHop : Addr) (ifaceIndex : Z)
  : M World (option error) :=
  let* r := call_LUIDFromIndex ifaceIndex in
  match r with
  | Err err =>
      ret (Some (ErrorfW "failed to convert interface index to LUID: %w" [] err))
  | Ok luid =>
      let* e := call_DeleteRoute luid destination nextHop in
      match e with
      | Some err =>
          if errors_Is_Errno err ERROR_NOT_FOUND
          then ret (Some (ErrorfW "route to %s not found: %w"
                                  [ArgPrefix destination] ErrNotFound))
          else ret (Some (ErrorfW "failed to delete route: %w" [] err))
      | None => ret None
      end
  end.

(** [func (r *Route) Delete() error] *)
Definition Route_Delete (r : Route) : M World (option error) :=
  call_DeleteRoute (LUID (ptr_obj (RInterface r))) (Destination r) (NextHop r).

(** The error [DeleteRoutes] builds around a failed deletion. *)
Definition wrapDelErr (route : Route) (delErr : error) : error :=
  ErrorfW "failed to delete route (dest: %s, iface: %s): %w"
          [ArgPrefix (Destination route);
           ArgString (Alias (ptr_obj (RInterface route)))]
          delErr.

(** The loop of [DeleteRoutes] over the matched routes. *)
Fixpoint delete_loop (errorAction : ErrorAction) (routes : list Route)
    (partialErrs : list error) : M World (list error * option error) :=
  match routes with
  | [] => ret (partialErrs, None)
  | route :: rest =>
      let* d := Route_Delete route in
      match d with
      | Some delErr =>
          let wrappedErr := wrapDelErr route delErr in
          if errorAction =? ErrorActionStop
          then ret ([], Some wrappedErr)
          else delete_loop errorAction rest (partialErrs ++ [wrappedErr])
      | None => delete_loop errorAction rest partialErrs
      end
  end.

(** [func DeleteRoutes(opts ...any) (partialErrs []error, err error)] *)
Definition DeleteRoutes (opts : list any) : M World (list error * option error) :=
  match extractRouteParameters opts with
  | (_, _, Some err) => ret ([], Some err)
  | (filters, errorAction, None) =>
      let* r := GetRoutes filters in
      match r with
      | Err err =>
          ret ([], Some (ErrorfW "failed to find routes for deletion: %w" [] err))
      | Ok routes =>
          match routes with
          | [] => ret ([], None)
          | _ :: _ => delete_loop errorAction routes []
          end
      end
  end.

End Program.

(** ** A reference operating system

    A small executable OS used to run the program on concrete inputs: the
    world is the adapter list, the routing table and a list of destinations
    whose deletion the OS refuses. *)

Module Sim.

Record World := mkWorld {
  adapters : list Adapter;
  table : list MibIPforwardRow2;
  denied : list Prefix
}.

Definition ERROR_FILE_NOT_FOUND : Z := 2.

Definition same_key (luid : Z) (dest : Prefix) (nextHop : Addr)
    (row : MibIPforwardRow2) : bool :=
  (InterfaceLUID row =? luid) && Prefix_eqb (DestinationPrefix row) dest
  && Addr_eqb (RowNextHop row) nextHop.

Definition LUIDFromIndex (w : World) (index : Z) : result Z :=
  match List.find (fun a => IfIndex a =? index) (adapters w) with
  | Some a => Ok (AdapterLUID a)
  | None => Err (Errno ERROR_FILE_NOT_FOUND)
  end.

Definition AddRoute (w : World) (luid : Z) (dest : Prefix) (nextHop : Addr)
    (metric : Z) : World * option error :=
  if List.existsb (same_key luid dest nextHop) (table w)
  then (w, Some (Errno ERROR_OBJECT_ALREADY_EXISTS))
  else ({| adapters := adapters w;
           table := table w ++ [mkRow luid dest nextHop metric 3 0];
           denied := denied w |}, None).

Definition DeleteRoute (w : World) (luid : Z) (dest : Prefix) (nextHop : Addr)
    : World * option error :=
  if List.existsb (Prefix_eqb dest) (denied w)
  then (w, Some (Errno ERROR_ACCESS_DENIED))
  else if List.existsb (same_key luid dest nextHop) (table w)
  then ({| adapters := adapters w;
           table := List.filter (fun row => negb (same_key luid dest nextHop row))
                                (table w);
           denied := denied w |}, None)
  else (w, Some (Errno ERROR_NOT_FOUND)).

Definition os : OS World :=
  {| os_GetAdaptersAddresses := fun w => Ok (adapters w);
     os_GetIPForwardTable2 := fun w => Ok (table w);
     os_LUIDFromIndex := LUIDFromIndex;
     os_AddRoute := AddRoute;
     os_DeleteRoute := DeleteRoute |}.

(** Lowercasing of the ASCII letters, the other bytes unchanged. *)
Definition lower_byte (c : ascii) : ascii :=
  let n := N_of_ascii c in
  if ((65 <=? n) && (n <=? 90))%N then ascii_of_N (n + 32) else c.

Fixpoint ToLower (s : string) : string :=
  match s with
  | EmptyString => EmptyString
  | String c s' => String (lower_byte c) (ToLower s')
  end.

(** Sample data: two adapters named alike up to case, a third one, and
    two adapters without an IPv4 index. *)
Definition eth0 : Adapter := mkAdapter 5 100 "Ethernet" "Realtek PCIe GbE".
Definition eth1 : Adapter := mkAdapter 0 200 "ethernet" "Intel I219".
Definition wifi : Adapter := mkAdapter 0 300 "Wi-Fi" "Intel AX200".
Definition num : Adapter := mkAdapter 7 400 "42" "Loopback".

Definition net (a b : Z) : Prefix := mkPrefix (Addr4 a) b.

Definition row1 : MibIPforwardRow2 := mkRow 100 (net 167772160 8) (Addr4 1) 10 3 0.
Definition row2 : MibIPforwardRow2 := mkRow 999 (net 3232235520 16) (Addr4 2) 20 3 0.
Definition row3 : MibIPforwardRow2 := mkRow 300 (net 2886729728 12) (Addr4 3) 10 3 0.
Definition row4 : MibIPforwardRow2 := mkRow 100 (net 0 0) (Addr4 4) 10 3 0.

Definition w0 : World :=
  {| adapters := [eth0; eth1; wifi];
     table := [row1; row2; row3; row4];
     denied := [net 2886729728 12] |}.

Definition s0 : St World := mkSt w0 [].

End Sim.

(** ** Specification-level definitions *)

(** The [Interface] built for an adapter, and the pointer to it when it is
    allocated at address [p]. *)
Definition iface_of (adapter : Adapter) : Interface :=
  {| Index := IfIndex adapter;
     LUID := AdapterLUID adapter;
     Alias := FriendlyName adapter;
     Description := AdapterDescription adapter |}.

Definition ptr_of (p : nat) (adapter : Adapter) : InterfacePtr :=
  {| ptr_addr := p; ptr_obj := iface_of adapter |}.

(** The first adapter of [adapters] whose key is [k], numbered from [p]. *)
Fixpoint first_with {K : Type} `{EqDecision K} (key : Adapter -> K) (k : K)
    (adapters : list Adapter) (p : nat) : option InterfacePtr :=
  match adapters with
  | [] => None
  | a :: rest =>
      if decide (key a = k) then Some (ptr_of p a)
      else first_with key k rest (S p)
  end.

(** The last adapter of [adapters] whose key is [k], numbered from [p]. *)
Fixpoint last_with {K : Type} `{EqDecision K} (key : Adapter -> K) (k : K)
    (adapters : list Adapter) (p : nat) : option InterfacePtr :=
  match adapters with
  | [] => None
  | a :: rest =>
      match last_with key k rest (S p) with
      | Some q => Some q
      | None => if decide (key a = k) then Some (ptr_of p a) else None
      end
  end.

(** The key of an adapter in the alias map. *)
Definition lowered (ToLower : string -> string) (a : Adapter) : string :=
  ToLower (FriendlyName a).

(** The alias-collision rule read literally: of two adapters with the same
    lowercased alias, the first of which is the first with that alias, the
    alias map holds the first one, and the later one is held by the LUID
    map and by the index map but by no entry of the alias map. *)
Definition alias_collision_rule (ToLower : string -> string)
    (adapters : list Adapter) : Prop :=
  ∀ (i j : nat) (adi adj : Adapter),
    adapters !! i = Some adi → adapters !! j = Some adj → (i < j)%nat →
    ToLower (FriendlyName adi) = ToLower (FriendlyName adj) →
    (∀ i' ad', (i' < i)%nat → adapters !! i' = Some ad' →
               ToLower (FriendlyName ad') ≠ ToLower (FriendlyName adi)) →
    let c := build_cache ToLower adapters in
    byAlias c !! ToLower (FriendlyName adj) = Some (ptr_of i adi)
    ∧ byLUID c !! AdapterLUID adj = Some (ptr_of j adj)
    ∧ byIndex c !! IfIndex adj = Some (ptr_of j adj)
    ∧ (∀ k q, byAlias c !! k = Some q → ptr_addr q ≠ j).

(** What [GetRoutes] keeps of one raw row: the enriched route, when the
    row's interface resolves and every filter accepts the route. *)
Definition select (cache : interfaceCache) (filters : list FilterOption)
    (row : MibIPforwardRow2) : option Route :=
  match byLUID cache !! InterfaceLUID row with
  | None => None
  | Some iface =>
      let route := enrich row iface in
      if forallb (fun f => f route) filters then Some route else None
  end.

Definition selected (cache : interfaceCache) (filters : list FilterOption)
    (row : MibIPforwardRow2) : bool :=
  match select cache filters row with Some _ => true | None => false end.

(** Options by dynamic type. *)
Definition as_filter (opt : any) : option FilterOption :=
  match opt with AnyFilterOption o => Some o | _ => None end.

Definition as_action (opt : any) : option ErrorAction :=
  match opt with AnyErrorAction o => Some o | _ => None end.

Definition supported (opt : any) : Prop :=
  match opt with AnyOther _ => False | _ => True end.

(** The OS call made by [Route.Delete]. *)
Definition delete_call (r : Route) : OsCall :=
  CallDeleteRoute (LUID (ptr_obj (RInterface r))) (Destination r) (NextHop r).

Section Runs.

Context {World : Type} (os : OS World).

(** The OS's answers to the deletion of [routes], one after the other,
    from the world [w], and the world they leave. *)
Fixpoint run_deletes (w : World) (routes : list Route)
  : list (option error) * World :=
  match routes with
  | [] => ([], w)
  | r :: rest =>
      let (w1, e) :=
        os_DeleteRoute os w (LUID (ptr_obj (RInterface r))) (Destination r)
                       (NextHop r) in
      let (es, w2) := run_deletes w1 rest in
      (e :: es, w2)
  end.

(** The wrapped errors of the deletions that failed, in order. *)
Fixpoint failures (routes : list Route) (answers : list (option error))
  : list error :=
  match routes, answers with
  | r :: routes', Some e :: answers' => wrapDelErr r e :: failures routes' answers'
  | _ :: routes', None :: answers' => failures routes' answers'
  | _, _ => []
  end.

(** The number of deletions that failed. *)
Definition failed (answers : list (option error)) : nat :=
  length (List.filter (fun a => match a with Some _ => true | None => false end)
                      answers).

End Runs.

(** ** The command-line front end *)

(** [errors.Is(err, ErrNotFound)]: walks the [%w] chain. *)
Fixpoint errors_Is_ErrNotFound (e : error) : bool :=
  match e with
  | ErrNotFound => true
  | ErrorfW _ _ w => errors_Is_ErrNotFound w
  | _ => false
  end.

(** The parsed flags of [wroute delete]: [GetString], [GetUint32],
    [Changed] and [GetBool] of the cobra flag set. *)
Record DeleteFlags := mkDeleteFlags {
  df_destination : string;
  df_if_index : Z;
  df_if_alias : string;
  df_metric_changed : bool;
  df_metric : Z;
  df_stop_on_error : bool
}.

(** The parsed flags of [wroute add] and [wroute delete-one] (the latter
    has no metric flag). *)
Record RouteFlags := mkRouteFlags {
  rf_destination : string;
  rf_next_hop : string;
  rf_if_index : Z;
  rf_metric : Z
}.

Definition is_empty (s : string) : bool :=
  match s with EmptyString => true | String _ _ => false end.

Section CLI.

Context {World : Type} (os : OS World).
Variable ToLower : string -> string.
(** [strings.EqualFold], [netip.ParsePrefix] and [netip.ParseAddr], from
    Go's standard library. *)
Variable EqualFold : string -> string -> bool.
Variable ParsePrefix : string -> result Prefix.
Variable ParseAddr : string -> result Addr.

(** The first half of [deleteCmd.RunE]: the option list built from the
    flags, with the count of filters, or the error of the destination
    parse. *)
Definition deleteCmd_options (f : DeleteFlags) : result (list any * Z) :=
  let allOpts : list any := [] in
  let filterCount := 0 in
  let dest :=
    if negb (is_empty (df_destination f)) then
      match ParsePrefix (df_destination f) with
      | Err err =>
          Err (ErrorfW "invalid destination prefix '%s': %w"
                       [ArgString (df_destination f)] err)
      | Ok prefix =>
          Ok (allOpts ++ [AnyFilterOption (WithDestinationPrefix prefix)],
              filterCount + 1)
      end
    else Ok (allOpts, filterCount) in
  match dest with
  | Err err => Err err
  | Ok (allOpts, filterCount) =>
      let '(allOpts, filterCount) :=
        if 0 <? df_if_index f
        then (allOpts ++ [AnyFilterOption (WithInterfaceIndex (df_if_index f))],
              filterCount + 1)
        else (allOpts, filterCount) in
      let '(allOpts, filterCount) :=
        if negb (is_empty (df_if_alias f))
        then (allOpts ++ [AnyFilterOption (WithInterfaceAlias EqualFold (df_if_alias f))],
              filterCount + 1)
        else (allOpts, filterCount) in
      let '(allOpts, filterCount) :=
        if df_metric_changed f
        then (allOpts ++ [AnyFilterOption (WithMetric (df_metric f))],
              filterCount + 1)
        else (allOpts, filterCount) in
      if filterCount =? 0 then
        Err (Errorf "at least one filter (--destination, --if-index, --if-alias, --metric) must be provided for deletion" [])
      else
        let allOpts :=
          if df_stop_on_error f
          then allOpts ++ [AnyErrorAction ErrorActionStop]
          else allOpts in
        Ok (allOpts, filterCount)
  end.

(** [deleteCmd.RunE]: the errors handed to [log.Printf] and the error
    returned.  The accumulated errors of [DeleteRoutes] are discarded. *)
Definition deleteCmd_RunE (f : DeleteFlags) : M World (list error * option error) :=
  match deleteCmd_options f with
  | Err err => ret ([], Some err)
  | Ok (allOpts, _) =>
      let* r := DeleteRoutes os ToLower allOpts in
      match snd r with
      | Some err => ret ([err], Some err)
      | None => ret ([], None)
      end
  end.

(** [addCmd.RunE] *)
Definition addCmd_RunE (f : RouteFlags) : M World (option error) :=
  match ParsePrefix (rf_destination f) with
  | Err err =>
      ret (Some (ErrorfW "invalid destination prefix '%s': %w"
                         [ArgString (rf_destination f)] err))
  | Ok destination =>
      match ParseAddr (rf_next_hop f) with
      | Err err =>
          ret (Some (ErrorfW "invalid next-hop address '%s': %w"
                             [ArgString (rf_next_hop f)] err))
      | Ok nextHop => AddRoute os destination nextHop (rf_if_index f) (rf_metric f)
      end
  end.

(** [deleteRouteCmd.RunE] *)
Definition deleteRouteCmd_RunE (f : RouteFlags) : M World (option error) :=
  match ParsePrefix (rf_destination f) with
  | Err err =>
      ret (Some (ErrorfW "invalid destination prefix '%s': %w"
                         [ArgString (rf_destination f)] err))
  | Ok destination =>
      match ParseAddr (rf_next_hop f) with
      | Err err =>
          ret (Some (ErrorfW "invalid next-hop address '%s': %w"
                             [ArgString (rf_next_hop f)] err))
      | Ok nextHop => DeleteRoute os destination nextHop (rf_if_index f)
      end
  end.

End CLI.

(** ** More reference data *)

Module Lab.

(** The reference OS with queries that can be made to fail. *)
Definition os (adaptersErr tableErr : option error) : OS Sim.World :=
  {| os_GetAdaptersAddresses :=
       fun w => match adaptersErr with
                | Some e => Err e
                | None => Ok (Sim.adapters w)
                end;
     os_GetIPForwardTable2 :=
       fun w => match tableErr with
                | Some e => Err e
                | None => Ok (Sim.table w)
                end;
     os_LUIDFromIndex := Sim.LUIDFromIndex;
     os_AddRoute := Sim.AddRoute;
     os_DeleteRoute := Sim.DeleteRoute |}.

Definition EqualFold (a b : string) : bool :=
  String.eqb (Sim.ToLower a) (Sim.ToLower b).

(** Parsers that know the few texts used below. *)
Definition ParsePrefix (s : string) : result Prefix :=
  if String.eqb s "10.0.0.0/8" then Ok (Sim.net 167772160 8)
  else if String.eqb s "172.16.0.0/12" then Ok (Sim.net 2886729728 12)
  else if String.eqb s "0.0.0.0/0" then Ok (Sim.net 0 0)
  else Err (Errorf "netip.ParsePrefix(%q): no '/'" [ArgString s]).

Definition ParseAddr (s : string) : result Addr :=
  if String.eqb s "0.0.0.1" then Ok (Addr4 1)
  else if String.eqb s "0.0.0.9" then Ok (Addr4 9)
  else Err (Errorf "ParseAddr(%q): unable to parse IP" [ArgString s]).

End Lab.

(** The OS call that deletes a raw row, keyed by the row's own fields. *)
Definition row_call (row : MibIPforwardRow2) : OsCall :=
  CallDeleteRoute (InterfaceLUID row) (DestinationPrefix row) (RowNextHop row).

(** The calls that change the routing table. *)
Definition is_mutation (c : OsCall) : bool :=
  match c with
  | CallAddRoute _ _ _ _ | CallDeleteRoute _ _ _ => true
  | _ => false
  end.

(** ** The interface cache: which adapter each map holds *)

Section KeyedSearch.

Context {K : Type} `{EqDecision K} (key : Adapter -> K).

Lemma first_with_lookup (k : K) (adapters : list Adapter) (p i : nat) (a : Adapter) :
  adapters !! i = Some a → key a = k →
  (∀ i' a', (i' < i)%nat → adapters !! i' = Some a' → key a' ≠ k) →
  first_with key k adapters p = Some (ptr_of (p + i) a).
Proof.
  revert p i. induction adapters as [|b rest IH]; intros p i Hi Hk Hmin.
  - discriminate.
  - destruct i as [|i]; simpl in *.
    + injection Hi as ->. rewrite decide_True by done.
      by rewrite Nat.add_0_r.
    + rewrite decide_False by (apply (Hmin 0%nat b); [lia | done]).
      rewrite (IH (S p) i Hi Hk).
      * f_equal. f_equal. lia.
      * intros i' a' Hlt Hl. apply (Hmin (S i') a'); [lia | done].
Qed.

Lemma first_with_inv (k : K) (adapters : list Adapter) (p : nat) (q : InterfacePtr) :
  first_with key k adapters p = Some q →
  ∃ i a, adapters !! i = Some a ∧ key a = k ∧ q = ptr_of (p + i) a
         ∧ ∀ i' a', (i' < i)%nat → adapters !! i' = Some a' → key a' ≠ k.
Proof.
  revert p. induction adapters as [|b rest IH]; intros p Hf; simpl in Hf.
  - discriminate.
  - destruct (decide (key b = k)) as [Hb|Hb].
    + injection Hf as <-. exists 0%nat, b. rewrite Nat.add_0_r.
      repeat split; try done. intros i' a' Hlt. lia.
    + destruct (IH (S p) Hf) as (i & a & Hi & Hk & Hq & Hmin).
      exists (S i), a. repeat split; try done.
      * rewrite Hq. f_equal. lia.
      * intros [|i'] a' Hlt Hl; simpl in Hl.
        -- by injection Hl as <-.
        -- apply (Hmin i' a'); [lia | done].
Qed.

Lemma last_with_inv (k : K) (adapters : list Adapter) (p : nat) (q : InterfacePtr) :
  last_with key k adapters p = Some q →
  ∃ j a, adapters !! j = Some a ∧ key a = k ∧ q = ptr_of (p + j) a.
Proof.
  revert p. induction adapters as [|b rest IH]; intros p Hl; simpl in Hl.
  - discriminate.
  - destruct (last_with key k rest (S p)) as [q'|] eqn:Hrest.
    + injection Hl as <-. destruct (IH (S p) Hrest) as (j & a & Hj & Hk & Hq).
      exists (S j), a. repeat split; try done. rewrite Hq. f_equal. lia.
    + destruct (decide (key b = k)) as [Hb|Hb]; [|discriminate].
      injection Hl as <-. exists 0%nat, b. by rewrite Nat.add_0_r.
Qed.

Lemma last_with_lookup (k : K) (adapters : list Adapter) (p j : nat) (a : Adapter) :
  adapters !! j = Some a → key a = k →
  (∀ j' a', (j < j')%nat → adapters !! j' = Some a' → key a' ≠ k) →
  last_with key k adapters p = Some (ptr_of (p + j) a).
Proof.
  revert p j. induction adapters as [|b rest IH]; intros p j Hj Hk Hmax.
  - discriminate.
  - destruct j as [|j]; simpl in *.
    + injection Hj as ->.
      destruct (last_with key k rest (S p)) as [q|] eqn:Hrest.
      * exfalso. destruct (last_with_inv k rest (S p) q Hrest) as (j & a' & Hj & Hk' & _).
        by apply (Hmax (S j) a'); [lia | |].
      * rewrite decide_True by done. by rewrite Nat.add_0_r.
    + rewrite (IH (S p) j Hj Hk).
      * f_equal. f_equal. lia.
      * intros j' a' Hlt Hl. apply (Hmax (S j') a'); [lia | done].
Qed.

Lemma last_with_None (k : K) (adapters : list Adapter) (p : nat) :
  last_with key k adapters p = None ↔ ∀ a, a ∈ adapters → key a ≠ k.
Proof.
  revert p. induction adapters as [|b rest IH]; intros p; simpl.
  - split; [|done]. intros _ a Ha. by apply elem_of_nil in Ha.
  - destruct (last_with key k rest (S p)) as [q|] eqn:Hrest.
    + split; [done|]. intros Hall. exfalso.
      assert (Some q = None) as Hq; [|discriminate].
      rewrite <- Hrest. apply IH. intros a Ha. apply Hall. by right.
    + destruct (decide (key b = k)) as [Hb|Hb].
      * split; [done|]. intros Hall. exfalso. apply (Hall b); [left | done].
      * split; [|done]. intros _ a Ha. apply elem_of_cons in Ha as [->|Ha]; [done|].
        by apply (proj1 (IH (S p)) Hrest).
Qed.

End KeyedSearch.

Section CacheFacts.

Variable ToLower : string -> string.

Local Abbreviation lowered := (lowered ToLower).

Lemma cache_loop_byAlias (adapters : list Adapter) (p : nat) (c : interfaceCache)
    (k : string) :
  byAlias (cache_loop ToLower adapters p c) !! k =
    match byAlias c !! k with
    | Some q => Some q
    | None => first_with lowered k adapters p
    end.
Proof.
  revert p c. induction adapters as [|a rest IH]; intros p c; simpl.
  - by destruct (byAlias c !! k).
  - rewrite IH. unfold cache_step, lowered; simpl.
    destruct (byAlias c !! ToLower (FriendlyName a)) as [q0|] eqn:Ha.
    + destruct (decide (ToLower (FriendlyName a) = k)) as [<-|Hne].
      * by rewrite Ha.
      * done.
    + destruct (decide (ToLower (FriendlyName a) = k)) as [<-|Hne].
      * by rewrite lookup_insert_eq, Ha.
      * by rewrite lookup_insert_ne.
Qed.

Lemma cache_loop_byLUID (adapters : list Adapter) (p : nat) (c : interfaceCache)
    (k : Z) :
  byLUID (cache_loop ToLower adapters p c) !! k =
    match last_with AdapterLUID k adapters p with
    | Some q => Some q
    | None => byLUID c !! k
    end.
Proof.
  revert p c. induction adapters as [|a rest IH]; intros p c; simpl.
  - done.
  - rewrite IH. destruct (last_with AdapterLUID k rest (S p)); [done|].
    unfold cache_step; simpl.
    destruct (decide (AdapterLUID a = k)) as [<-|Hne].
    + by rewrite lookup_insert_eq.
    + by rewrite lookup_insert_ne.
Qed.

Lemma cache_loop_byIndex (adapters : list Adapter) (p : nat) (c : interfaceCache)
    (k : Z) :
  byIndex (cache_loop ToLower adapters p c) !! k =
    match last_with IfIndex k adapters p with
    | Some q => Some q
    | None => byIndex c !! k
    end.
Proof.
  revert p c. induction adapters as [|a rest IH]; intros p c; simpl.
  - done.
  - rewrite IH. destruct (last_with IfIndex k rest (S p)); [done|].
    unfold cache_step; simpl.
    destruct (decide (IfIndex a = k)) as [<-|Hne].
    + by rewrite lookup_insert_eq.
    + by rewrite lookup_insert_ne.
Qed.

Lemma build_cache_byAlias (adapters : list Adapter) (k : string) :
  byAlias (build_cache ToLower adapters) !! k = first_with lowered k adapters 0.
Proof. unfold build_cache. by rewrite cache_loop_byAlias. Qed.

Lemma build_cache_byLUID (adapters : list Adapter) (k : Z) :
  byLUID (build_cache ToLower adapters) !! k = last_with AdapterLUID k adapters 0.
Proof.
  unfold build_cache. rewrite cache_loop_byLUID.
  by destruct (last_with AdapterLUID k adapters 0).
Qed.

Lemma build_cache_byIndex (adapters : list Adapter) (k : Z) :
  byIndex (build_cache ToLower adapters) !! k = last_with IfIndex k adapters 0.
Proof.
  unfold build_cache. rewrite cache_loop_byIndex.
  by destruct (last_with IfIndex k adapters 0).
Qed.

(** An entry of the LUID map is an interface with that LUID, built for
    an adapter of the list. *)
Lemma byLUID_entry (adapters : list Adapter) (k : Z) (q : InterfacePtr) :
  byLUID (build_cache ToLower adapters) !! k = Some q →
  LUID (ptr_obj q) = k ∧ ∃ j a, adapters !! j = Some a ∧ q = ptr_of j a.
Proof.
  rewrite build_cache_byLUID. intros Hq.
  destruct (last_with_inv AdapterLUID k adapters 0 q Hq) as (j & a & Hj & Hk & ->).
  split; [done|]. by exists j, a.
Qed.

(** The LUID map has no entry exactly for the LUIDs of no adapter. *)
Lemma byLUID_absent (adapters : list Adapter) (k : Z) :
  byLUID (build_cache ToLower adapters) !! k = None ↔
  ∀ a, a ∈ adapters → AdapterLUID a ≠ k.
Proof. rewrite build_cache_byLUID. apply last_with_None. Qed.

(** The alias map never holds an adapter that comes after another one
    with the same lowercased alias. *)
Lemma byAlias_never_later (adapters : list Adapter) (i j : nat) (adi adj : Adapter) :
  adapters !! i = Some adi → adapters !! j = Some adj → (i < j)%nat →
  lowered adi = lowered adj →
  ∀ k q, byAlias (build_cache ToLower adapters) !! k = Some q → ptr_addr q ≠ j.
Proof.
  intros Hi Hj Hlt Heq k q. rewrite build_cache_byAlias. intros Hq.
  destruct (first_with_inv lowered k adapters 0 q Hq) as (i0 & a0 & Hi0 & Hk & -> & Hmin).
  simpl. intros ->. assert (a0 = adj) as -> by congruence.
  apply (Hmin i adi Hlt Hi). congruence.
Qed.

End CacheFacts.

(** ** strconv.ParseUint *)

Example ParseUint32_max : ParseUint32 "4294967295" = Some 4294967295.
Proof. reflexivity. Qed.

Example ParseUint32_overflow : ParseUint32 "4294967296" = None.
Proof. reflexivity. Qed.

Example ParseUint32_leading_zeros : ParseUint32 "007" = Some 7.
Proof. reflexivity. Qed.

Example ParseUint32_empty : ParseUint32 "" = None.
Proof. reflexivity. Qed.

Example ParseUint32_sign : ParseUint32 "+5" = None.
Proof. reflexivity. Qed.

Example ParseUint32_letters : ParseUint32 "Wi-Fi" = None.
Proof. reflexivity. Qed.


Lemma ParseUint_loop_range (s : string) (n v : Z) :
  0 <= n → ParseUint_loop s n = Some v → 0 <= v <= maxVal32 ∨ (s = EmptyString ∧ v = n).
Proof.
  revert n. induction s as [|c s IH]; intros n Hn; simpl.
  - intros [= <-]. by right.
  - destruct ((48 <=? Z.of_N (N_of_ascii c)) && (Z.of_N (N_of_ascii c) <=? 57)) eqn:Hd;
      [|discriminate].
    destruct (cutoff10 <=? n); [discriminate|].
    destruct (maxVal32 <? n * 10 + (Z.of_N (N_of_ascii c) - 48)) eqn:Hmax; [discriminate|].
    intros Hv. left.
    apply andb_true_iff in Hd as [Hlo Hhi].
    apply Z.leb_le in Hlo. apply Z.ltb_ge in Hmax.
    assert (0 <= n * 10 + (Z.of_N (N_of_ascii c) - 48)) as Hn1 by lia.
    destruct (IH _ Hn1 Hv) as [Hr|[-> ->]]; [done | lia].
Qed.

Lemma ParseUint32_range (s : string) (v : Z) :
  ParseUint32 s = Some v → uint32 v = v.
Proof.
  unfold ParseUint32. destruct s as [|c s]; [discriminate|]. intros Hv.
  destruct (ParseUint_loop_range _ 0 v ltac:(lia) Hv) as [Hr|[? _]]; [|discriminate].
  unfold uint32. apply Z.mod_small. unfold maxVal32 in Hr.
  change (2 ^ 32) with 4294967296 in *. lia.
Qed.

(** ** Interface lookup *)

(** C6.  [findInterface] resolves an identifier through the index map when
    it parses as an unsigned 32-bit decimal number that has an entry there;
    when it does not parse, or parses to an index without entry, it
    resolves through the alias map at the lowercased identifier; when that
    fails too the result is the not-found error wrapping [ErrNotFound].  On
    a cache built from an adapter list, an identifier that does not resolve
    by index and equals an adapter's alias up to case resolves to the first
    adapter with that alias: in particular a numeric-looking alias that is
    no index. *)
Theorem findInterface_index_then_alias (ToLower : string -> string)
    (c : interfaceCache) (s : string) :
  (∀ n q, ParseUint32 s = Some n → byIndex c !! n = Some q →
          findInterface ToLower c s = Ok q)
  ∧ (∀ q, ParseUint32 s = None ∨ (∃ n, ParseUint32 s = Some n ∧ byIndex c !! n = None) →
          byAlias c !! ToLower s = Some q →
          findInterface ToLower c s = Ok q)
  ∧ (ParseUint32 s = None ∨ (∃ n, ParseUint32 s = Some n ∧ byIndex c !! n = None) →
     byAlias c !! ToLower s = None →
     findInterface ToLower c s =
       Err (ErrorfW "interface '%s' not found: %w" [ArgString s] ErrNotFound))
  ∧ (∀ adapters i a,
       c = build_cache ToLower adapters →
       ParseUint32 s = None ∨ (∃ n, ParseUint32 s = Some n ∧ byIndex c !! n = None) →
       adapters !! i = Some a → ToLower s = ToLower (FriendlyName a) →
       (∀ i' a', (i' < i)%nat → adapters !! i' = Some a' →
                 ToLower (FriendlyName a') ≠ ToLower (FriendlyName a)) →
       findInterface ToLower c s = Ok (ptr_of i a)).
Proof.
  assert (∀ q, ParseUint32 s = None ∨ (∃ n, ParseUint32 s = Some n ∧ byIndex c !! n = None) →
               byAlias c !! ToLower s = Some q →
               findInterface ToLower c s = Ok q) as Halias.
  { intros q Hidx Hal. unfold findInterface.
    destruct Hidx as [->|(n & Hn & Hnone)].
    - by rewrite Hal.
    - rewrite Hn, (ParseUint32_range _ _ Hn), Hnone. by rewrite Hal. }
  split; [|split; [exact Halias|split]].
  - intros n q Hn Hq. unfold findInterface.
    by rewrite Hn, (ParseUint32_range _ _ Hn), Hq.
  - intros Hidx Hal. unfold findInterface.
    destruct Hidx as [->|(n & Hn & Hnone)].
    + by rewrite Hal.
    + rewrite Hn, (ParseUint32_range _ _ Hn), Hnone. by rewrite Hal.
  - intros adapters i a -> Hidx Hi Hs Hmin. apply Halias; [done|].
    rewrite build_cache_byAlias, Hs.
    by apply (first_with_lookup (lowered ToLower) _ adapters 0 i a).
Qed.

Lemma findInterface_index_then_alias_witness :
  let c := build_cache Sim.ToLower [Sim.eth0; Sim.num] in
  findInterface Sim.ToLower c "5" = Ok (ptr_of 0 Sim.eth0)
  ∧ findInterface Sim.ToLower c "42" = Ok (ptr_of 1 Sim.num)
  ∧ findInterface Sim.ToLower c "ETHERNET" = Ok (ptr_of 0 Sim.eth0)
  ∧ findInterface Sim.ToLower c "wlan" =
      Err (ErrorfW "interface '%s' not found: %w" [ArgString "wlan"] ErrNotFound).
Proof.
  intros c. split; [|split; [|split]].
  - apply (proj1 (findInterface_index_then_alias Sim.ToLower c "5") 5);
      vm_compute; reflexivity.
  - apply (proj2 (proj2 (proj2 (findInterface_index_then_alias Sim.ToLower c "42")))
             [Sim.eth0; Sim.num] 1%nat Sim.num).
    + reflexivity.
    + right. exists 42. split; vm_compute; reflexivity.
    + reflexivity.
    + reflexivity.
    + intros [|i'] a' Hlt Hl; [|lia]. injection Hl as <-. vm_compute. discriminate.
  - apply (proj1 (proj2 (findInterface_index_then_alias Sim.ToLower c "ETHERNET"))).
    + left. vm_compute; reflexivity.
    + vm_compute; reflexivity.
  - apply (proj1 (proj2 (proj2 (findInterface_index_then_alias Sim.ToLower c "wlan")))).
    + left. vm_compute; reflexivity.
    + vm_compute; reflexivity.
Defined.

(** ** Alias collisions *)

(** C7, as the code has it.  Of two adapters with the same lowercased
    alias, the first of which is the first adapter with that alias, the
    alias map binds the lowercased alias to the first one and no entry of
    the alias map is the later one; the later one is the LUID map's entry
    for its LUID when no adapter after it has the same LUID, and the index
    map's entry for its index when no adapter after it has the same
    index. *)
Theorem alias_collision_first_wins (ToLower : string -> string)
    (adapters : list Adapter) (i j : nat) (adi adj : Adapter) :
  adapters !! i = Some adi → adapters !! j = Some adj → (i < j)%nat →
  ToLower (FriendlyName adi) = ToLower (FriendlyName adj) →
  (∀ i' ad', (i' < i)%nat → adapters !! i' = Some ad' →
             ToLower (FriendlyName ad') ≠ ToLower (FriendlyName adi)) →
  let c := build_cache ToLower adapters in
  byAlias c !! ToLower (FriendlyName adj) = Some (ptr_of i adi)
  ∧ (∀ k q, byAlias c !! k = Some q → ptr_addr q ≠ j)
  ∧ ((∀ j' ad', (j < j')%nat → adapters !! j' = Some ad' →
                AdapterLUID ad' ≠ AdapterLUID adj) →
     byLUID c !! AdapterLUID adj = Some (ptr_of j adj))
  ∧ ((∀ j' ad', (j < j')%nat → adapters !! j' = Some ad' →
                IfIndex ad' ≠ IfIndex adj) →
     byIndex c !! IfIndex adj = Some (ptr_of j adj)).
Proof.
  intros Hi Hj Hlt Heq Hmin c. subst c. repeat split.
  - rewrite build_cache_byAlias, <- Heq.
    by apply (first_with_lookup (lowered ToLower) _ adapters 0 i adi).
  - by apply (byAlias_never_later ToLower adapters i j adi adj).
  - intros Hlast. rewrite build_cache_byLUID.
    by apply (last_with_lookup AdapterLUID _ adapters 0 j adj).
  - intros Hlast. rewrite build_cache_byIndex.
    by apply (last_with_lookup IfIndex _ adapters 0 j adj).
Qed.

Lemma alias_collision_first_wins_witness :
  let c := build_cache Sim.ToLower [Sim.eth0; Sim.eth1; Sim.num] in
  byAlias c !! "ethernet"%string = Some (ptr_of 0 Sim.eth0)
  ∧ (∀ k q, byAlias c !! k = Some q → ptr_addr q ≠ 1%nat)
  ∧ byLUID c !! 200 = Some (ptr_of 1 Sim.eth1)
  ∧ byIndex c !! 0 = Some (ptr_of 1 Sim.eth1).
Proof.
  intros c.
  destruct (alias_collision_first_wins Sim.ToLower [Sim.eth0; Sim.eth1; Sim.num]
              0%nat 1%nat Sim.eth0 Sim.eth1)
    as (Ha & Hn & Hl & Hx).
  - reflexivity.
  - reflexivity.
  - lia.
  - reflexivity.
  - intros i' ad' Hlt. lia.
  - split; [exact Ha|]. split; [exact Hn|]. split.
    + apply Hl. intros [|[|[|j']]] ad' Hlt Hl'; try lia; try discriminate.
      injection Hl' as <-. vm_compute. discriminate.
    + apply Hx. intros [|[|[|j']]] ad' Hlt Hl'; try lia; try discriminate.
      injection Hl' as <-. vm_compute. discriminate.
Defined.

(** C7, the rule read literally fails: with two adapters that have no IPv4
    index (index 0 both), the one that shares its alias with an earlier
    adapter is not the index map's entry for its index. *)
Lemma alias_collision_rule_fails :
  ¬ alias_collision_rule Sim.ToLower [Sim.eth0; Sim.eth1; Sim.wifi].
Proof.
  intros H.
  destruct (H 0%nat 1%nat Sim.eth0 Sim.eth1 eq_refl eq_refl ltac:(lia) eq_refl)
    as (_ & _ & Hx & _).
  - intros i' ad' Hlt. lia.
  - vm_compute in Hx. discriminate.
Qed.

(** ** GetRoutes *)

Lemma matches_loop_forallb (filters : list FilterOption) (r : Route) :
  matches_loop filters r = forallb (fun f => f r) filters.
Proof.
  induction filters as [|f rest IH]; simpl; [done|].
  by destruct (f r).
Qed.

Lemma forallb_filters (filters : list FilterOption) (r : Route) :
  forallb (fun f => f r) filters = true ↔ ∀ f, f ∈ filters → f r = true.
Proof.
  rewrite forallb_forall. split; intros H f Hf; apply H; by apply list_elem_of_In.
Qed.

Lemma routes_loop_omap (cache : interfaceCache) (filters : list FilterOption)
    (baseRoutes : list MibIPforwardRow2) (routes : list Route) :
  routes_loop cache filters baseRoutes routes =
    routes ++ omap (select cache filters) baseRoutes.
Proof.
  revert routes. induction baseRoutes as [|row rest IH]; intros routes; simpl.
  - by rewrite app_nil_r.
  - unfold select at 1.
    destruct (byLUID cache !! InterfaceLUID row) as [iface|]; [|apply IH].
    rewrite matches_loop_forallb.
    destruct (forallb (fun f => f (enrich row iface)) filters); rewrite IH; [|done].
    by rewrite <- app_assoc.
Qed.

Lemma select_Some (cache : interfaceCache) (filters : list FilterOption)
    (row : MibIPforwardRow2) (r : Route) :
  select cache filters row = Some r ↔
  ∃ iface, byLUID cache !! InterfaceLUID row = Some iface ∧ r = enrich row iface
           ∧ ∀ f, f ∈ filters → f r = true.
Proof.
  unfold select. destruct (byLUID cache !! InterfaceLUID row) as [iface|].
  - destruct (forallb (fun f => f (enrich row iface)) filters) eqn:Hall.
    + split.
      * intros [= <-]. exists iface. repeat split; try done.
        by apply forallb_filters.
      * intros (iface' & [= <-] & -> & _). done.
    + split; [done|]. intros (iface' & [= <-] & -> & Hf).
      apply forallb_filters in Hf. congruence.
  - split; [done|]. by intros (iface' & ? & _).
Qed.

Lemma select_no_filter (cache : interfaceCache) (rows : list MibIPforwardRow2) :
  omap (select cache []) rows =
    omap (fun row => enrich row <$> byLUID cache !! InterfaceLUID row) rows.
Proof.
  induction rows as [|row rest IH]; [done|]. csimpl. rewrite IH.
  unfold select. by destruct (byLUID cache !! InterfaceLUID row).
Qed.

Lemma filter_sublist {A : Type} (f : A -> bool) (l : list A) :
  sublist (List.filter f l) l.
Proof.
  induction l as [|x l IH]; simpl; [constructor|].
  destruct (f x); by constructor.
Qed.

Lemma omap_filter_Forall2 (cache : interfaceCache) (filters : list FilterOption)
    (rows : list MibIPforwardRow2) :
  Forall2 (fun row r => select cache filters row = Some r)
          (List.filter (selected cache filters) rows)
          (omap (select cache filters) rows).
Proof.
  induction rows as [|row rest IH]; simpl; [constructor|].
  unfold selected at 1. destruct (select cache filters row) as [r|] eqn:Hs; [|done].
  by constructor.
Qed.

Section GetRoutesFacts.

Context {World : Type} (os : OS World).
Variable ToLower : string -> string.

Lemma newInterfaceCache_run (s : St World) (adapters : list Adapter) :
  os_GetAdaptersAddresses os (world s) = Ok adapters →
  newInterfaceCache os ToLower s =
    (Ok (build_cache ToLower adapters),
     mkSt (world s) (trace s ++ [CallGetAdaptersAddresses])).
Proof.
  intros Ha. unfold newInterfaceCache, bind, call_GetAdaptersAddresses, log.
  by rewrite Ha.
Qed.

Lemma GetRoutes_run (filters : list FilterOption) (s : St World)
    (adapters : list Adapter) (baseRoutes : list MibIPforwardRow2) :
  os_GetAdaptersAddresses os (world s) = Ok adapters →
  os_GetIPForwardTable2 os (world s) = Ok baseRoutes →
  GetRoutes os ToLower filters s =
    (Ok (omap (select (build_cache ToLower adapters) filters) baseRoutes),
     mkSt (world s)
          (trace s ++ [CallGetAdaptersAddresses; CallGetIPForwardTable2])).
Proof.
  intros Ha Hb. unfold GetRoutes, bind.
  rewrite (newInterfaceCache_run s adapters Ha).
  unfold call_GetIPForwardTable2, log, ret; simpl.
  rewrite Hb, routes_loop_omap, <- app_assoc. done.
Qed.

End GetRoutesFacts.

Section GetRoutesClaims.

Context {World : Type} (os : OS World).
Variable ToLower : string -> string.

(** C1.  When the two OS queries succeed, [GetRoutes] returns the enriched
    routes of the rows whose interface LUID has an entry in the cache and
    that every filter accepts: a route is returned exactly when it is the
    enrichment of such a row, one route per such row; without filters the
    result is the enrichment of every resolvable row. *)
Theorem GetRoutes_exact (filters : list FilterOption) (s : St World)
    (adapters : list Adapter) (baseRoutes : list MibIPforwardRow2) :
  os_GetAdaptersAddresses os (world s) = Ok adapters →
  os_GetIPForwardTable2 os (world s) = Ok baseRoutes →
  let cache := build_cache ToLower adapters in
  ∃ routes,
    fst (GetRoutes os ToLower filters s) = Ok routes
    ∧ (∀ r, r ∈ routes ↔
            ∃ row iface, row ∈ baseRoutes
                         ∧ byLUID cache !! InterfaceLUID row = Some iface
                         ∧ r = enrich row iface
                         ∧ ∀ f, f ∈ filters → f r = true)
    ∧ routes = omap (select cache filters) baseRoutes
    ∧ (filters = [] →
       routes = omap (fun row => enrich row <$> byLUID cache !! InterfaceLUID row)
                     baseRoutes).
Proof.
  intros Ha Hb cache. eexists. rewrite (GetRoutes_run os ToLower filters s _ _ Ha Hb).
  split; [reflexivity|]. split; [|split; [reflexivity|]].
  - intros r. rewrite list_elem_of_omap. split.
    + intros (row & Hrow & Hsel). apply select_Some in Hsel as (iface & Hl & Hr & Hf).
      by exists row, iface.
    + intros (row & iface & Hrow & Hl & Hr & Hf). exists row. split; [done|].
      apply select_Some. by exists iface.
  - intros ->. apply select_no_filter.
Qed.

(** C9.  When the two OS queries succeed, the routes returned by
    [GetRoutes] are, position by position, the enrichments of the rows kept
    from the OS enumeration, and the kept rows are the resolvable,
    filter-matching rows in enumeration order: a subsequence of the
    enumeration. *)
Theorem GetRoutes_enumeration_order (filters : list FilterOption) (s : St World)
    (adapters : list Adapter) (baseRoutes : list MibIPforwardRow2) :
  os_GetAdaptersAddresses os (world s) = Ok adapters →
  os_GetIPForwardTable2 os (world s) = Ok baseRoutes →
  let cache := build_cache ToLower adapters in
  ∃ routes rows,
    fst (GetRoutes os ToLower filters s) = Ok routes
    ∧ rows = List.filter (selected cache filters) baseRoutes
    ∧ sublist rows baseRoutes
    ∧ Forall2 (fun row r => select cache filters row = Some r) rows routes.
Proof.
  intros Ha Hb cache. eexists. eexists.
  rewrite (GetRoutes_run os ToLower filters s _ _ Ha Hb).
  split; [reflexivity|]. split; [reflexivity|]. split.
  - apply filter_sublist.
  - apply omap_filter_Forall2.
Qed.

(** C4.  When the two OS queries succeed and a raw row's interface LUID is
    the LUID of no adapter of the snapshot, [GetRoutes] returns without
    error, the result is the result for the table without that row, no
    returned route is on an interface with that LUID, and the interface of
    every returned route is the cache's entry for the LUID of the row the
    route was built from. *)
Theorem GetRoutes_skips_unresolved (filters : list FilterOption) (s : St World)
    (adapters : list Adapter) (pre post : list MibIPforwardRow2)
    (row : MibIPforwardRow2) :
  os_GetAdaptersAddresses os (world s) = Ok adapters →
  os_GetIPForwardTable2 os (world s) = Ok (pre ++ row :: post) →
  (∀ a, a ∈ adapters → AdapterLUID a ≠ InterfaceLUID row) →
  let cache := build_cache ToLower adapters in
  ∃ routes,
    fst (GetRoutes os ToLower filters s) = Ok routes
    ∧ (∀ s', os_GetAdaptersAddresses os (world s') = Ok adapters →
             os_GetIPForwardTable2 os (world s') = Ok (pre ++ post) →
             fst (GetRoutes os ToLower filters s') = Ok routes)
    ∧ (∀ r, r ∈ routes → LUID (ptr_obj (RInterface r)) ≠ InterfaceLUID row)
    ∧ (∀ r, r ∈ routes →
            ∃ row', row' ∈ pre ++ post
                    ∧ byLUID cache !! InterfaceLUID row' = Some (RInterface r)
                    ∧ r = enrich row' (RInterface r)).
Proof.
  intros Ha Hb Habs cache. subst cache.
  set (cache := build_cache ToLower adapters).
  assert (byLUID cache !! InterfaceLUID row = None) as Hnone
    by (by apply byLUID_absent).
  assert (omap (select cache filters) (pre ++ row :: post)
          = omap (select cache filters) (pre ++ post)) as Hsame.
  { rewrite !omap_app. csimpl. unfold select at 2. by rewrite Hnone. }
  assert (∀ r, r ∈ omap (select cache filters) (pre ++ post) →
               ∃ row', row' ∈ pre ++ post
                       ∧ byLUID cache !! InterfaceLUID row' = Some (RInterface r)
                       ∧ r = enrich row' (RInterface r)) as Hentry.
  { intros r Hr. apply list_elem_of_omap in Hr as (row' & Hrow' & Hsel).
    apply select_Some in Hsel as (iface & Hl & -> & _). by exists row'. }
  exists (omap (select cache filters) (pre ++ post)).
  rewrite (GetRoutes_run os ToLower filters s _ _ Ha Hb). cbn [fst].
  fold cache. split; [by rewrite Hsame|]. split; [|split; [|exact Hentry]].
  - intros s' Ha' Hb'. by rewrite (GetRoutes_run os ToLower filters s' _ _ Ha' Hb').
  - intros r Hr. destruct (Hentry r Hr) as (row' & _ & Hl & _).
    apply byLUID_entry in Hl as [HL (j & a & Hj & Hq)].
    rewrite Hq. simpl. apply Habs. by apply list_elem_of_lookup_2 in Hj.
Qed.

End GetRoutesClaims.

Lemma GetRoutes_exact_witness :
  ∃ routes,
    fst (GetRoutes Sim.os Sim.ToLower [WithInterfaceIndex 5; WithMetric 10] Sim.s0)
      = Ok routes
    ∧ routes = [enrich Sim.row1 (ptr_of 0 Sim.eth0); enrich Sim.row4 (ptr_of 0 Sim.eth0)].
Proof.
  destruct (GetRoutes_exact Sim.os Sim.ToLower [WithInterfaceIndex 5; WithMetric 10]
              Sim.s0 (Sim.adapters Sim.w0) (Sim.table Sim.w0) eq_refl eq_refl)
    as (routes & Hrun & _ & Heq & _).
  exists routes. split; [exact Hrun|]. rewrite Heq. vm_compute. reflexivity.
Defined.

Lemma GetRoutes_enumeration_order_witness :
  ∃ routes rows,
    fst (GetRoutes Sim.os Sim.ToLower [WithMetric 10] Sim.s0) = Ok routes
    ∧ rows = [Sim.row1; Sim.row3; Sim.row4]
    ∧ sublist rows (Sim.table Sim.w0)
    ∧ length routes = 3%nat.
Proof.
  destruct (GetRoutes_enumeration_order Sim.os Sim.ToLower [WithMetric 10]
              Sim.s0 (Sim.adapters Sim.w0) (Sim.table Sim.w0) eq_refl eq_refl)
    as (routes & rows & Hrun & Hrows & Hsub & Hall).
  exists routes, rows. split; [exact Hrun|].
  assert (rows = [Sim.row1; Sim.row3; Sim.row4]) as Hr.
  { rewrite Hrows. vm_compute. reflexivity. }
  split; [exact Hr|]. split; [exact Hsub|].
  rewrite <- (Forall2_length _ _ _ Hall), Hr. reflexivity.
Defined.

Lemma GetRoutes_skips_unresolved_witness :
  ∃ routes,
    fst (GetRoutes Sim.os Sim.ToLower [] Sim.s0) = Ok routes
    ∧ (∀ r, r ∈ routes → LUID (ptr_obj (RInterface r)) ≠ 999).
Proof.
  destruct (GetRoutes_skips_unresolved Sim.os Sim.ToLower [] Sim.s0
              (Sim.adapters Sim.w0) [Sim.row1] [Sim.row3; Sim.row4] Sim.row2
              eq_refl eq_refl)
    as (routes & Hrun & _ & Hno & _).
  - intros a Ha. simpl in Ha.
    repeat (apply elem_of_cons in Ha as [->|Ha]; [vm_compute; discriminate|]).
    by apply elem_of_nil in Ha.
  - exists routes. split; [exact Hrun | exact Hno].
Defined.

(** ** Options of DeleteRoutes *)

Lemma extract_loop_supported (opts : list any) (filters : list FilterOption)
    (errorAction : ErrorAction) :
  Forall supported opts →
  extract_loop opts filters errorAction =
    (filters ++ omap as_filter opts,
     default errorAction (last (omap as_action opts)),
     None).
Proof.
  intros Hall. revert filters errorAction.
  induction Hall as [|opt rest Hopt _ IH]; intros filters errorAction; simpl.
  - by rewrite app_nil_r.
  - destruct opt as [o|o|T]; [| |done]; rewrite IH; csimpl.
    + by rewrite <- app_assoc.
    + rewrite last_cons. by destruct (last (omap as_action rest)).
Qed.

Lemma extract_loop_unsupported (opts : list any) (filters : list FilterOption)
    (errorAction : ErrorAction) :
  (∃ T, AnyOther T ∈ opts) →
  ∃ T, AnyOther T ∈ opts
       ∧ extract_loop opts filters errorAction =
           ([], 0, Some (Errorf "unsupported option type: %T" [ArgType T])).
Proof.
  revert filters errorAction.
  induction opts as [|opt rest IH]; intros filters errorAction [T HT].
  - by apply elem_of_nil in HT.
  - assert (∀ f a, ∃ T', AnyOther T' ∈ opt :: rest
                        ∧ extract_loop rest f a =
                            ([], 0, Some (Errorf "unsupported option type: %T"
                                                 [ArgType T']))
                   ∨ opt = AnyOther T) as Hrest.
    { intros f a. apply elem_of_cons in HT as [<-|HT].
      - exists T. by right.
      - destruct (IH f a (ex_intro _ T HT)) as (T' & HT' & Hrun).
        exists T'. left. split; [by right | done]. }
    destruct opt as [o|o|T0]; simpl.
    + destruct (Hrest (filters ++ [o]) errorAction) as (T' & [[? ?]|?]); [|done].
      by exists T'.
    + destruct (Hrest filters o) as (T' & [[? ?]|?]); [|done].
      by exists T'.
    + exists T0. split; [left | done].
Qed.

Lemma extract_loop_error (opts : list any) (filters : list FilterOption)
    (errorAction : ErrorAction) (err : error) :
  snd (extract_loop opts filters errorAction) = Some err → ∃ T, AnyOther T ∈ opts.
Proof.
  revert filters errorAction.
  induction opts as [|opt rest IH]; intros filters errorAction; simpl; [done|].
  destruct opt as [o|o|T].
  - intros H. destruct (IH _ _ H) as [T HT]. exists T. by right.
  - intros H. destruct (IH _ _ H) as [T HT]. exists T. by right.
  - intros _. exists T. by left.
Qed.

(** ** Deletion runs *)

Section DeleteFacts.

Context {World : Type} (os : OS World).
Variable ToLower : string -> string.

Lemma run_deletes_length (w : World) (routes : list Route) :
  length (fst (run_deletes os w routes)) = length routes.
Proof.
  revert w. induction routes as [|r rest IH]; intros w; simpl; [done|].
  destruct (os_DeleteRoute os w _ _ _) as [w1 e].
  specialize (IH w1). destruct (run_deletes os w1 rest) as [es w2].
  simpl in *. by rewrite IH.
Qed.

Lemma failures_length (routes : list Route) (answers : list (option error)) :
  length routes = length answers →
  length (failures routes answers) = failed answers.
Proof.
  revert answers. induction routes as [|r rest IH]; intros [|[e|] answers] Hlen;
    simpl in *; try done; unfold failed in *; simpl; rewrite IH; try done; lia.
Qed.

Lemma failed_all (answers : list (option error)) :
  Forall is_Some answers → failed answers = length answers.
Proof.
  unfold failed. induction 1 as [|a answers [e ->] _ IH]; simpl; [done|].
  by rewrite IH.
Qed.

Lemma failures_elem (routes : list Route) (answers : list (option error)) (e : error) :
  e ∈ failures routes answers →
  ∃ i r delErr, routes !! i = Some r ∧ answers !! i = Some (Some delErr)
                ∧ e = wrapDelErr r delErr.
Proof.
  revert answers. induction routes as [|r rest IH]; intros [|[d|] answers] He;
    simpl in He; try (by apply elem_of_nil in He).
  - apply elem_of_cons in He as [->|He].
    + by exists 0%nat, r, d.
    + destruct (IH _ He) as (i & r' & d' & ? & ? & ?). by exists (S i), r', d'.
  - destruct (IH _ He) as (i & r' & d' & ? & ? & ?). by exists (S i), r', d'.
Qed.

(** The loop under any policy other than [ErrorActionStop]: every route is
    attempted and the failures are appended. *)
Lemma delete_loop_continue (errorAction : ErrorAction) (routes : list Route)
    (partialErrs : list error) (s : St World) :
  errorAction ≠ ErrorActionStop →
  delete_loop os errorAction routes partialErrs s =
    ((partialErrs ++ failures routes (fst (run_deletes os (world s) routes)), None),
     mkSt (snd (run_deletes os (world s) routes))
          (trace s ++ map delete_call routes)).
Proof.
  intros Hne. assert ((errorAction =? ErrorActionStop) = false) as Hb
    by (by apply Z.eqb_neq).
  revert partialErrs s. induction routes as [|r rest IH]; intros partialErrs [w tr]; simpl.
  - by rewrite !app_nil_r.
  - unfold bind, Route_Delete, call_DeleteRoute, log; simpl.
    destruct (os_DeleteRoute os w _ _ _) as [w1 [delErr|]]; simpl.
    + rewrite Hb, IH; simpl.
      destruct (run_deletes os w1 rest) as [es w2]; simpl.
      by rewrite <- !app_assoc.
    + rewrite IH; simpl.
      destruct (run_deletes os w1 rest) as [es w2]; simpl.
      by rewrite <- !app_assoc.
Qed.

(** The loop under [ErrorActionStop], the first failure being that of [r]. *)
Lemma delete_loop_stop (pre post : list Route) (r : Route)
    (partialErrs : list error) (s : St World) (delErr : error) (w2 : World) :
  Forall (fun a => a = None) (fst (run_deletes os (world s) pre)) →
  os_DeleteRoute os (snd (run_deletes os (world s) pre))
                 (LUID (ptr_obj (RInterface r))) (Destination r) (NextHop r)
    = (w2, Some delErr) →
  delete_loop os ErrorActionStop (pre ++ r :: post) partialErrs s =
    (([], Some (wrapDelErr r delErr)),
     mkSt w2 (trace s ++ map delete_call pre ++ [delete_call r])).
Proof.
  revert partialErrs s. induction pre as [|r0 pre IH]; intros partialErrs [w tr]; simpl.
  - intros _ Hr. unfold bind, Route_Delete, call_DeleteRoute, log; simpl.
    by rewrite Hr.
  - unfold bind, Route_Delete, call_DeleteRoute, log; simpl.
    destruct (os_DeleteRoute os w _ _ _) as [w1 e0]; simpl.
    destruct (run_deletes os w1 pre) as [es w'] eqn:Hrun; simpl.
    intros Hall Hr. apply Forall_cons in Hall as [-> Hall]. simpl.
    fold (delete_call r0).
    rewrite (IH partialErrs (mkSt w1 (tr ++ [delete_call r0]))); simpl.
    + by rewrite <- !app_assoc.
    + by rewrite Hrun.
    + by rewrite Hrun.
Qed.

End DeleteFacts.

(** ** DeleteRoutes and AddRoute *)

Section MutationClaims.

Context {World : Type} (os : OS World).
Variable ToLower : string -> string.

(** C2.  Under [ErrorActionContinue], when the listing succeeds with the
    matched routes, [DeleteRoutes] attempts the deletion of every one of
    them in order and returns a nil fatal error and one accumulated error
    per failed deletion, whatever their number: each one wraps the OS error
    of a failed deletion together with that route's destination and
    interface alias. *)
Theorem DeleteRoutes_continue_collects (opts : list any)
    (filters : list FilterOption) (s s1 : St World) (routes : list Route)
    (answers : list (option error)) (w' : World) :
  extractRouteParameters opts = (filters, ErrorActionContinue, None) →
  GetRoutes os ToLower filters s = (Ok routes, s1) →
  run_deletes os (world s1) routes = (answers, w') →
  ∃ partialErrs,
    DeleteRoutes os ToLower opts s =
      ((partialErrs, None), mkSt w' (trace s1 ++ map delete_call routes))
    ∧ length answers = length routes
    ∧ length partialErrs = failed answers
    ∧ (Forall is_Some answers → length partialErrs = length routes)
    ∧ partialErrs = failures routes answers
    ∧ (∀ e, e ∈ partialErrs →
            ∃ i r delErr,
              routes !! i = Some r ∧ answers !! i = Some (Some delErr)
              ∧ e = ErrorfW "failed to delete route (dest: %s, iface: %s): %w"
                            [ArgPrefix (Destination r);
                             ArgString (Alias (ptr_obj (RInterface r)))]
                            delErr).
Proof.
  intros Hopts Hget Hrun.
  assert (length answers = length routes) as Hlen.
  { pose proof (run_deletes_length os (world s1) routes) as H. by rewrite Hrun in H. }
  exists (failures routes answers).
  split; [|split; [done|split; [|split; [|split; [done|]]]]].
  - unfold DeleteRoutes. rewrite Hopts. unfold bind. rewrite Hget.
    destruct routes as [|r rest].
    + simpl in Hrun. injection Hrun as <- <-. unfold ret. simpl.
      destruct s1 as [w1 tr1]. simpl. by rewrite app_nil_r.
    + rewrite delete_loop_continue by done. by rewrite Hrun.
  - by apply failures_length.
  - intros Hfail. rewrite failures_length, failed_all; done.
  - apply failures_elem.
Qed.

(** C3.  Under [ErrorActionStop], when the listing succeeds and the
    deletions of the routes [pre] succeed but that of the next route [r]
    fails, [DeleteRoutes] returns that failure, wrapped with the
    destination and interface alias of [r], as the fatal error, with a nil
    accumulated list; the OS calls made after the listing are the deletions
    of [pre] and of [r] and nothing else, so no route of [post] is
    attempted, and the world left is the one of the failed call, made from
    the world in which the routes of [pre] were deleted. *)
Theorem DeleteRoutes_stop_aborts (opts : list any) (filters : list FilterOption)
    (s s1 : St World) (pre post : list Route) (r : Route)
    (answers : list (option error)) (w1 w2 : World) (delErr : error) :
  extractRouteParameters opts = (filters, ErrorActionStop, None) →
  GetRoutes os ToLower filters s = (Ok (pre ++ r :: post), s1) →
  run_deletes os (world s1) pre = (answers, w1) →
  Forall (fun a => a = None) answers →
  os_DeleteRoute os w1 (LUID (ptr_obj (RInterface r))) (Destination r) (NextHop r)
    = (w2, Some delErr) →
  DeleteRoutes os ToLower opts s =
    (([], Some (ErrorfW "failed to delete route (dest: %s, iface: %s): %w"
                        [ArgPrefix (Destination r);
                         ArgString (Alias (ptr_obj (RInterface r)))]
                        delErr)),
     mkSt w2 (trace s1 ++ map delete_call pre ++ [delete_call r])).
Proof.
  intros Hopts Hget Hrun Hall Hr.
  unfold DeleteRoutes. rewrite Hopts. unfold bind. rewrite Hget.
  destruct (pre ++ r :: post) as [|r0 rest] eqn:Hroutes.
  { by destruct pre. }
  rewrite <- Hroutes.
  apply (delete_loop_stop os pre post r [] s1 delErr w2); by rewrite Hrun.
Qed.

(** C5.  When the option list holds an element that is neither a
    [FilterOption] nor an [ErrorAction], [DeleteRoutes] returns the
    unsupported-option error for such an element, with a nil accumulated
    list, and leaves the state as it was: the world is unchanged and no OS
    call is added to the trace. *)
Theorem DeleteRoutes_invalid_option (opts : list any) (s : St World) :
  (∃ T, AnyOther T ∈ opts) →
  ∃ T, AnyOther T ∈ opts
       ∧ DeleteRoutes os ToLower opts s =
           (([], Some (Errorf "unsupported option type: %T" [ArgType T])), s).
Proof.
  intros Hbad.
  destruct (extract_loop_unsupported opts [] ErrorActionContinue Hbad)
    as (T & HT & Hrun).
  exists T. split; [done|].
  unfold DeleteRoutes, extractRouteParameters. by rewrite Hrun.
Qed.

(** C8.  [AddRoute] first asks the OS for the LUID of the interface index.
    When that fails, it returns the conversion error wrapping the OS error
    and has made that one call only: the world is unchanged and no
    add-route call was issued.  When it succeeds, the calls made are the
    resolution followed by exactly one add-route call for the resolved
    LUID. *)
Theorem AddRoute_resolves_first (destination : Prefix) (nextHop : Addr)
    (ifaceIndex metric : Z) (s : St World) :
  (∀ err, os_LUIDFromIndex os (world s) ifaceIndex = Err err →
          AddRoute os destination nextHop ifaceIndex metric s =
            (Some (ErrorfW "failed to convert interface index to LUID: %w" [] err),
             mkSt (world s) (trace s ++ [CallLUIDFromIndex ifaceIndex])))
  ∧ (∀ luid, os_LUIDFromIndex os (world s) ifaceIndex = Ok luid →
             snd (AddRoute os destination nextHop ifaceIndex metric s) =
               mkSt (fst (os_AddRoute os (world s) luid destination nextHop metric))
                    (trace s ++ [CallLUIDFromIndex ifaceIndex;
                                 CallAddRoute luid destination nextHop metric])).
Proof.
  split.
  - intros err Herr. unfold AddRoute, bind, call_LUIDFromIndex, log. by rewrite Herr.
  - intros luid Hluid. unfold AddRoute, bind, call_LUIDFromIndex, call_AddRoute, log.
    rewrite Hluid. simpl.
    destruct (os_AddRoute os (world s) luid destination nextHop metric) as [w [err|]];
      simpl; [destruct (errors_Is_Errno err ERROR_OBJECT_ALREADY_EXISTS)|];
      simpl; by rewrite <- app_assoc.
Qed.

(** C10.  An error of [extractRouteParameters] always comes from an
    element that is neither a [FilterOption] nor an [ErrorAction], never
    from the number of [ErrorAction] values.  For an option list of
    [FilterOption] and [ErrorAction] values only, it returns no error, the
    filters in their order in the list, and the last [ErrorAction] of the
    list ([ErrorActionContinue] when there is none); [DeleteRoutes] then
    behaves as on those filters followed by that single [ErrorAction], and
    when the listing for those filters returns routes, the whole deletion
    loop runs under that [ErrorAction]. *)
Theorem extractRouteParameters_last_action_wins (opts : list any) :
  (∀ err, snd (extractRouteParameters opts) = Some err → ∃ T, AnyOther T ∈ opts)
  ∧ (Forall supported opts →
     extractRouteParameters opts =
       (omap as_filter opts,
        default ErrorActionContinue (last (omap as_action opts)),
        None)
     ∧ (∀ s, DeleteRoutes os ToLower opts s =
             DeleteRoutes os ToLower
               (map AnyFilterOption (omap as_filter opts)
                ++ [AnyErrorAction (default ErrorActionContinue
                                            (last (omap as_action opts)))]) s)
     ∧ (∀ s s1 r routes,
          GetRoutes os ToLower (omap as_filter opts) s = (Ok (r :: routes), s1) →
          DeleteRoutes os ToLower opts s =
            delete_loop os (default ErrorActionContinue (last (omap as_action opts)))
                        (r :: routes) [] s1)).
Proof.
  split.
  { intros err Herr. by apply (extract_loop_error opts [] ErrorActionContinue err). }
  intros Hall.
  assert (extractRouteParameters opts =
            (omap as_filter opts,
             default ErrorActionContinue (last (omap as_action opts)), None)) as Hext.
  { unfold extractRouteParameters. by rewrite extract_loop_supported. }
  split; [exact Hext|]. split.
  2:{ intros s s1 r routes Hget. unfold DeleteRoutes. rewrite Hext.
      unfold bind. by rewrite Hget. }
  intros s.
  set (fs := omap as_filter opts) in *.
  set (a := default ErrorActionContinue (last (omap as_action opts))) in *.
  assert (extractRouteParameters (map AnyFilterOption fs ++ [AnyErrorAction a])
          = (fs, a, None)) as Hnorm.
  { unfold extractRouteParameters. rewrite extract_loop_supported.
    - simpl. f_equal. f_equal.
      + clear. induction fs as [|f fs IH]; [done|]. csimpl. by rewrite IH.
      + assert (omap as_action (map AnyFilterOption fs ++ [AnyErrorAction a]) = [a])
          as ->; [|done].
        clear. induction fs as [|f fs IH]; [done|]. csimpl. by rewrite IH.
    - apply Forall_app. split; [|by repeat constructor].
      clear. induction fs; by constructor. }
  unfold DeleteRoutes. by rewrite Hext, Hnorm.
Qed.

End MutationClaims.

Lemma DeleteRoutes_continue_collects_witness :
  (∃ partialErrs,
     fst (DeleteRoutes Sim.os Sim.ToLower [AnyFilterOption (WithMetric 10)] Sim.s0)
       = (partialErrs, None)
     ∧ length partialErrs = 1%nat)
  ∧ (∃ partialErrs,
       fst (DeleteRoutes Sim.os Sim.ToLower [AnyFilterOption (WithInterfaceIndex 0)]
                         Sim.s0)
         = (partialErrs, None)
       ∧ length partialErrs = 1%nat).
Proof.
  split.
  - edestruct (DeleteRoutes_continue_collects Sim.os Sim.ToLower
                 [AnyFilterOption (WithMetric 10)] [WithMetric 10] Sim.s0)
      as (partialErrs & Hrun & Hlen & Hcount & _).
    + reflexivity.
    + reflexivity.
    + reflexivity.
    + exists partialErrs. rewrite Hrun. split; [reflexivity | exact Hcount].
  - edestruct (DeleteRoutes_continue_collects Sim.os Sim.ToLower
                 [AnyFilterOption (WithInterfaceIndex 0)] [WithInterfaceIndex 0] Sim.s0)
      as (partialErrs & Hrun & Hlen & _ & Hall & _).
    + reflexivity.
    + reflexivity.
    + reflexivity.
    + exists partialErrs. rewrite Hrun. split; [reflexivity |].
      apply Hall. repeat constructor. by eexists.
Defined.

Lemma DeleteRoutes_stop_aborts_witness :
  let opts := [AnyFilterOption (WithMetric 10); AnyErrorAction ErrorActionStop] in
  let out := DeleteRoutes Sim.os Sim.ToLower opts Sim.s0 in
  fst out =
    ([], Some (ErrorfW "failed to delete route (dest: %s, iface: %s): %w"
                       [ArgPrefix (Sim.net 2886729728 12); ArgString "Wi-Fi"]
                       (Errno ERROR_ACCESS_DENIED)))
  ∧ trace (snd out) =
      [CallGetAdaptersAddresses; CallGetIPForwardTable2;
       CallDeleteRoute 100 (Sim.net 167772160 8) (Addr4 1);
       CallDeleteRoute 300 (Sim.net 2886729728 12) (Addr4 3)]
  ∧ Sim.table (world (snd out)) = [Sim.row2; Sim.row3; Sim.row4].
Proof.
  intros opts out. subst out.
  erewrite (DeleteRoutes_stop_aborts Sim.os Sim.ToLower opts [WithMetric 10] Sim.s0 _
              [enrich Sim.row1 (ptr_of 0 Sim.eth0)]
              [enrich Sim.row4 (ptr_of 0 Sim.eth0)]
              (enrich Sim.row3 (ptr_of 2 Sim.wifi)));
    [| reflexivity | reflexivity | reflexivity | repeat constructor | reflexivity].
  split; [reflexivity|]. split; reflexivity.
Defined.

Lemma DeleteRoutes_invalid_option_witness :
  ∃ T, AnyOther T ∈ [AnyFilterOption (WithMetric 10); AnyOther "int"; AnyOther "string"]
       ∧ DeleteRoutes Sim.os Sim.ToLower
           [AnyFilterOption (WithMetric 10); AnyOther "int"; AnyOther "string"] Sim.s0 =
           (([], Some (Errorf "unsupported option type: %T" [ArgType T])), Sim.s0).
Proof.
  apply (DeleteRoutes_invalid_option Sim.os Sim.ToLower).
  exists "int"%string. apply elem_of_cons. right. apply elem_of_cons. by left.
Defined.

Lemma AddRoute_resolves_first_witness :
  AddRoute Sim.os (Sim.net 1 8) (Addr4 9) 77 1 Sim.s0 =
    (Some (ErrorfW "failed to convert interface index to LUID: %w" []
                   (Errno Sim.ERROR_FILE_NOT_FOUND)),
     mkSt Sim.w0 [CallLUIDFromIndex 77])
  ∧ trace (snd (AddRoute Sim.os (Sim.net 1 8) (Addr4 9) 5 1 Sim.s0)) =
      [CallLUIDFromIndex 5; CallAddRoute 100 (Sim.net 1 8) (Addr4 9) 1].
Proof.
  split.
  - apply (proj1 (AddRoute_resolves_first Sim.os (Sim.net 1 8) (Addr4 9) 77 1 Sim.s0)).
    reflexivity.
  - rewrite (proj2 (AddRoute_resolves_first Sim.os (Sim.net 1 8) (Addr4 9) 5 1 Sim.s0) 100).
    + reflexivity.
    + reflexivity.
Defined.

Lemma extractRouteParameters_last_action_wins_witness :
  let opts := [AnyErrorAction ErrorActionStop; AnyFilterOption (WithMetric 10);
               AnyErrorAction ErrorActionContinue;
               AnyFilterOption (WithInterfaceIndex 5);
               AnyErrorAction ErrorActionStop] in
  extractRouteParameters opts =
    ([WithMetric 10; WithInterfaceIndex 5], ErrorActionStop, None).
Proof.
  intros opts.
  rewrite (proj1 (proj2 (extractRouteParameters_last_action_wins
                           Sim.os Sim.ToLower opts)
                        ltac:(repeat constructor))).
  reflexivity.
Defined.

(** ** The interface cache: invariants *)

Section KeyedSearchMore.

Context {K : Type} `{EqDecision K} (key : Adapter -> K).

Lemma first_with_None (k : K) (adapters : list Adapter) (p : nat) :
  first_with key k adapters p = None ↔ ∀ a, a ∈ adapters → key a ≠ k.
Proof.
  revert p. induction adapters as [|b rest IH]; intros p; simpl.
  - split; [|done]. intros _ a Ha. by apply elem_of_nil in Ha.
  - destruct (decide (key b = k)) as [Hb|Hb].
    + split; [done|]. intros Hall. exfalso. apply (Hall b); [left | done].
    + rewrite IH. split.
      * intros Hall a Ha. apply elem_of_cons in Ha as [->|Ha]; [done | by apply Hall].
      * intros Hall a Ha. apply Hall. by right.
Qed.

Lemma first_with_is_Some (k : K) (adapters : list Adapter) (p : nat) :
  is_Some (first_with key k adapters p) ↔ ∃ a, a ∈ adapters ∧ key a = k.
Proof.
  revert p. induction adapters as [|b rest IH]; intros p; simpl.
  - split; [by intros [? ?]|]. intros (a & Ha & _). by apply elem_of_nil in Ha.
  - destruct (decide (key b = k)) as [Hb|Hb].
    + split; [|by eexists]. intros _. exists b. split; [left | done].
    + rewrite IH. split.
      * intros (a & Ha & Hk). exists a. split; [by right | done].
      * intros (a & Ha & Hk). apply elem_of_cons in Ha as [->|Ha]; [done|].
        by exists a.
Qed.

Lemma last_with_is_Some (k : K) (adapters : list Adapter) (p : nat) :
  is_Some (last_with key k adapters p) ↔ ∃ a, a ∈ adapters ∧ key a = k.
Proof.
  split.
  - intros [q Hq]. destruct (last_with_inv key k adapters p q Hq) as (j & a & Hj & Hk & _).
    exists a. split; [|done]. by apply list_elem_of_lookup_2 in Hj.
  - intros (a & Ha & Hk). destruct (last_with key k adapters p) as [q|] eqn:Hl; [by eexists|].
    exfalso. by apply (proj1 (last_with_None key k adapters p) Hl a Ha).
Qed.

Lemma NoDup_key_lookup (adapters : list Adapter) (i j : nat) (a b : Adapter) :
  NoDup (key <$> adapters) →
  adapters !! i = Some a → adapters !! j = Some b → key a = key b → i = j.
Proof.
  intros Hnd Hi Hj Hk.
  apply (NoDup_lookup (key <$> adapters) i j (key a) Hnd).
  - by rewrite list_lookup_fmap, Hi.
  - by rewrite list_lookup_fmap, Hj, Hk.
Qed.

End KeyedSearchMore.

Section CacheInvariants.

Variable ToLower : string -> string.

Local Abbreviation lowered := (lowered ToLower).

(** X1.  Every entry of a built cache is filed under its own key and
    points to an adapter of the enumeration: the LUID map's entry for [k]
    has LUID [k], the index map's entry for [k] has index [k], the alias
    map's entry for [k] has an alias whose lowercase is [k], and each is
    the interface allocated for some adapter of the list. *)
Theorem cache_entries_consistent (adapters : list Adapter) :
  let c := build_cache ToLower adapters in
  (∀ k q, byLUID c !! k = Some q →
          LUID (ptr_obj q) = k ∧ ∃ j a, adapters !! j = Some a ∧ q = ptr_of j a)
  ∧ (∀ k q, byIndex c !! k = Some q →
            Index (ptr_obj q) = k ∧ ∃ j a, adapters !! j = Some a ∧ q = ptr_of j a)
  ∧ (∀ k q, byAlias c !! k = Some q →
            ToLower (Alias (ptr_obj q)) = k
            ∧ ∃ j a, adapters !! j = Some a ∧ q = ptr_of j a).
Proof.
  intros c. subst c. split; [|split].
  - intros k q. rewrite build_cache_byLUID. intros Hq.
    destruct (last_with_inv AdapterLUID k adapters 0 q Hq) as (j & a & Hj & Hk & ->).
    split; [done|]. by exists j, a.
  - intros k q. rewrite build_cache_byIndex. intros Hq.
    destruct (last_with_inv IfIndex k adapters 0 q Hq) as (j & a & Hj & Hk & ->).
    split; [done|]. by exists j, a.
  - intros k q. rewrite build_cache_byAlias. intros Hq.
    destruct (first_with_inv lowered k adapters 0 q Hq) as (j & a & Hj & Hk & -> & _).
    split; [done|]. by exists j, a.
Qed.

(** X2.  The keys of a built cache are exactly the keys of the adapters:
    a LUID, an index or a lowercased alias has an entry if and only if
    some adapter of the enumeration has it. *)
Theorem cache_keys_exact (adapters : list Adapter) :
  let c := build_cache ToLower adapters in
  (∀ k, is_Some (byLUID c !! k) ↔ ∃ a, a ∈ adapters ∧ AdapterLUID a = k)
  ∧ (∀ k, is_Some (byIndex c !! k) ↔ ∃ a, a ∈ adapters ∧ IfIndex a = k)
  ∧ (∀ k, is_Some (byAlias c !! k) ↔
          ∃ a, a ∈ adapters ∧ ToLower (FriendlyName a) = k).
Proof.
  intros c. subst c. split; [|split]; intros k.
  - rewrite build_cache_byLUID. apply last_with_is_Some.
  - rewrite build_cache_byIndex. apply last_with_is_Some.
  - rewrite build_cache_byAlias. apply (first_with_is_Some lowered).
Qed.

(** X3.  When the adapters' LUIDs (indices, lowercased aliases) are
    pairwise distinct, every adapter is the LUID map's (index map's, alias
    map's) entry for its own key: no adapter is shadowed. *)
Theorem cache_distinct_keys_all_reachable (adapters : list Adapter) :
  let c := build_cache ToLower adapters in
  (NoDup (AdapterLUID <$> adapters) →
   ∀ j a, adapters !! j = Some a → byLUID c !! AdapterLUID a = Some (ptr_of j a))
  ∧ (NoDup (IfIndex <$> adapters) →
     ∀ j a, adapters !! j = Some a → byIndex c !! IfIndex a = Some (ptr_of j a))
  ∧ (NoDup (lowered <$> adapters) →
     ∀ j a, adapters !! j = Some a →
            byAlias c !! ToLower (FriendlyName a) = Some (ptr_of j a)).
Proof.
  intros c. subst c. split; [|split]; intros Hnd j a Hj.
  - rewrite build_cache_byLUID.
    apply (last_with_lookup AdapterLUID _ adapters 0 j a Hj eq_refl).
    intros j' a' Hlt Hj' Hk.
    pose proof (NoDup_key_lookup AdapterLUID adapters j' j a' a Hnd Hj' Hj Hk). lia.
  - rewrite build_cache_byIndex.
    apply (last_with_lookup IfIndex _ adapters 0 j a Hj eq_refl).
    intros j' a' Hlt Hj' Hk.
    pose proof (NoDup_key_lookup IfIndex adapters j' j a' a Hnd Hj' Hj Hk). lia.
  - rewrite build_cache_byAlias.
    apply (first_with_lookup lowered _ adapters 0 j a Hj eq_refl).
    intros j' a' Hlt Hj' Hk.
    pose proof (NoDup_key_lookup lowered adapters j' j a' a Hnd Hj' Hj Hk). lia.
Qed.

(** X4.  Alias lookup is case-insensitive: two identifiers with the same
    lowercase, neither of which parses as a number, resolve to the same
    interface or both fail. *)
Theorem findInterface_case_insensitive (c : interfaceCache) (s s' : string) :
  ParseUint32 s = None → ParseUint32 s' = None → ToLower s = ToLower s' →
  (∀ q, findInterface ToLower c s = Ok q ↔ findInterface ToLower c s' = Ok q)
  ∧ ((∃ e, findInterface ToLower c s = Err e) ↔
     (∃ e, findInterface ToLower c s' = Err e)).
Proof.
  intros Hs Hs' Heq. unfold findInterface. rewrite Hs, Hs', Heq.
  destruct (byAlias c !! ToLower s') as [q0|]; split.
  - done.
  - split; intros [e He]; discriminate.
  - intros q. split; intros He; discriminate.
  - split; intros _; by eexists.
Qed.

(** X5.  On a built cache, an interface returned by [findInterface] is
    the interface of an adapter of the enumeration whose index is the
    number the identifier parses to or whose alias equals the identifier
    up to case; and [findInterface] fails exactly when no adapter has
    either. *)
Theorem findInterface_sound_complete (adapters : list Adapter) (s : string) :
  let c := build_cache ToLower adapters in
  (∀ q, findInterface ToLower c s = Ok q →
        ∃ j a, adapters !! j = Some a ∧ q = ptr_of j a
               ∧ (ParseUint32 s = Some (IfIndex a)
                  ∨ ToLower (FriendlyName a) = ToLower s))
  ∧ ((∃ e, findInterface ToLower c s = Err e) ↔
     ∀ a, a ∈ adapters →
          ParseUint32 s ≠ Some (IfIndex a) ∧ ToLower (FriendlyName a) ≠ ToLower s).
Proof.
  intros c. subst c.
  assert (∀ n, ParseUint32 s = Some n →
               byIndex (build_cache ToLower adapters) !! uint32 n =
               last_with IfIndex n adapters 0) as Hidx.
  { intros n Hn. by rewrite (ParseUint32_range _ _ Hn), build_cache_byIndex. }
  split.
  - intros q. unfold findInterface.
    destruct (ParseUint32 s) as [n|] eqn:Hn.
    + rewrite (Hidx n eq_refl).
      destruct (last_with IfIndex n adapters 0) as [q0|] eqn:Hl.
      * intros [= <-].
        destruct (last_with_inv IfIndex n adapters 0 q0 Hl) as (j & a & Hj & Hk & ->).
        exists j, a. repeat split; try done. left. by rewrite Hk.
      * rewrite build_cache_byAlias.
        destruct (first_with lowered (ToLower s) adapters 0) as [q0|] eqn:Hf; [|done].
        intros [= <-].
        destruct (first_with_inv lowered _ adapters 0 q0 Hf) as (j & a & Hj & Hk & -> & _).
        exists j, a. repeat split; try done. by right.
    + rewrite build_cache_byAlias.
      destruct (first_with lowered (ToLower s) adapters 0) as [q0|] eqn:Hf; [|done].
      intros [= <-].
      destruct (first_with_inv lowered _ adapters 0 q0 Hf) as (j & a & Hj & Hk & -> & _).
      exists j, a. repeat split; try done. by right.
  - unfold findInterface. rewrite build_cache_byAlias. split.
    + intros [e He] a Ha.
      destruct (first_with lowered (ToLower s) adapters 0) as [q0|] eqn:Hf.
      { destruct (ParseUint32 s) as [n|];
          [destruct (byIndex (build_cache ToLower adapters) !! uint32 n)|]; discriminate. }
      split; [|by apply (proj1 (first_with_None lowered _ adapters 0) Hf a Ha)].
      intros Hn. rewrite Hn, (Hidx _ Hn) in He.
      destruct (last_with IfIndex (IfIndex a) adapters 0) as [q0|] eqn:Hl; [discriminate|].
      by apply (proj1 (last_with_None IfIndex _ adapters 0) Hl a Ha).
    + intros Hall.
      assert (first_with lowered (ToLower s) adapters 0 = None) as ->.
      { apply first_with_None. intros a Ha. by apply Hall. }
      destruct (ParseUint32 s) as [n|] eqn:Hn; [|by eexists].
      rewrite (Hidx n eq_refl).
      assert (last_with IfIndex n adapters 0 = None) as ->; [|by eexists].
      apply last_with_None. intros a Ha Hk.
      destruct (Hall a Ha) as [Hne _]. apply Hne. by rewrite Hk.
Qed.

End CacheInvariants.

Lemma cache_entries_consistent_witness :
  Index (ptr_obj (ptr_of 2 Sim.wifi)) = 0
  ∧ ∃ j a, [Sim.eth0; Sim.eth1; Sim.wifi] !! j = Some a ∧ ptr_of 2 Sim.wifi = ptr_of j a.
Proof.
  apply (proj1 (proj2 (cache_entries_consistent Sim.ToLower
                         [Sim.eth0; Sim.eth1; Sim.wifi])) 0 (ptr_of 2 Sim.wifi)).
  vm_compute. reflexivity.
Defined.

Lemma cache_keys_exact_witness :
  is_Some (byAlias (build_cache Sim.ToLower [Sim.eth0; Sim.eth1; Sim.wifi])
             !! "wi-fi"%string).
Proof.
  apply (proj2 (proj2 (cache_keys_exact Sim.ToLower [Sim.eth0; Sim.eth1; Sim.wifi]))).
  exists Sim.wifi. split; [|reflexivity].
  apply elem_of_cons. right. apply elem_of_cons. right. apply elem_of_cons. by left.
Defined.

Lemma cache_distinct_keys_all_reachable_witness :
  let c := build_cache Sim.ToLower [Sim.eth0; Sim.wifi; Sim.num] in
  byLUID c !! 300 = Some (ptr_of 1 Sim.wifi)
  ∧ byIndex c !! 0 = Some (ptr_of 1 Sim.wifi)
  ∧ byAlias c !! "wi-fi"%string = Some (ptr_of 1 Sim.wifi).
Proof.
  intros c.
  destruct (cache_distinct_keys_all_reachable Sim.ToLower [Sim.eth0; Sim.wifi; Sim.num])
    as (HL & HI & HA).
  split; [|split].
  - apply (HL ltac:(by apply (bool_decide_unpack _)) 1%nat Sim.wifi eq_refl).
  - apply (HI ltac:(by apply (bool_decide_unpack _)) 1%nat Sim.wifi eq_refl).
  - apply (HA ltac:(by apply (bool_decide_unpack _)) 1%nat Sim.wifi eq_refl).
Defined.

Lemma findInterface_case_insensitive_witness :
  findInterface Sim.ToLower (build_cache Sim.ToLower [Sim.eth0; Sim.eth1; Sim.wifi])
                "ethernet" = Ok (ptr_of 0 Sim.eth0).
Proof.
  apply (proj1 (proj1 (findInterface_case_insensitive Sim.ToLower
                         (build_cache Sim.ToLower [Sim.eth0; Sim.eth1; Sim.wifi])
                         "ETHERNET" "ethernet" eq_refl eq_refl eq_refl)
                      (ptr_of 0 Sim.eth0))).
  reflexivity.
Defined.

Lemma findInterface_sound_complete_witness :
  (∃ j a, [Sim.eth0; Sim.num] !! j = Some a ∧ ptr_of 1 Sim.num = ptr_of j a
          ∧ (ParseUint32 "42" = Some (IfIndex a)
             ∨ Sim.ToLower (FriendlyName a) = Sim.ToLower "42"))
  ∧ ∃ e, findInterface Sim.ToLower (build_cache Sim.ToLower [Sim.eth0; Sim.num]) "wlan"
         = Err e.
Proof.
  split.
  - apply (proj1 (findInterface_sound_complete Sim.ToLower [Sim.eth0; Sim.num] "42")).
    vm_compute. reflexivity.
  - apply (proj2 (findInterface_sound_complete Sim.ToLower [Sim.eth0; Sim.num] "wlan")).
    intros a Ha.
    apply elem_of_cons in Ha as [->|Ha]; [split; vm_compute; discriminate|].
    apply elem_of_cons in Ha as [->|Ha]; [split; vm_compute; discriminate|].
    by apply elem_of_nil in Ha.
Defined.

(** ** GetRoutes: failures, filters, bounds *)

Lemma Addr_eqb_eq (a b : Addr) : Addr_eqb a b = true ↔ a = b.
Proof.
  destruct a as [x|x], b as [y|y]; simpl; try done; rewrite Z.eqb_eq; split;
    (by intros ->) || (by intros [= ->]).
Qed.

Lemma Prefix_eqb_eq (p q : Prefix) : Prefix_eqb p q = true ↔ p = q.
Proof.
  unfold Prefix_eqb. rewrite andb_true_iff, Addr_eqb_eq, Z.eqb_eq.
  destruct p as [a n], q as [b m]; simpl. split.
  - by intros [-> ->].
  - by intros [= -> ->].
Qed.

Lemma select_app (cache : interfaceCache) (F G : list FilterOption)
    (row : MibIPforwardRow2) :
  select cache (F ++ G) row =
    match select cache F row with
    | Some r => if forallb (fun f => f r) G then Some r else None
    | None => None
    end.
Proof.
  unfold select. destruct (byLUID cache !! InterfaceLUID row) as [iface|]; [|done].
  cbv zeta. rewrite forallb_app. unfold FilterOption in *.
  destruct (forallb (fun f => f (enrich row iface)) F); simpl; [|done].
  by destruct (forallb (fun f => f (enrich row iface)) G).
Qed.

Lemma omap_select_app (cache : interfaceCache) (F G : list FilterOption)
    (rows : list MibIPforwardRow2) :
  omap (select cache (F ++ G)) rows =
    List.filter (fun r => forallb (fun f => f r) G) (omap (select cache F) rows).
Proof.
  induction rows as [|row rest IH]; [done|]. csimpl. rewrite IH, select_app.
  destruct (select cache F row) as [r|]; [|done]. simpl.
  by destruct (forallb (fun f => f r) G).
Qed.

Lemma forallb_filters_mono (F F' : list FilterOption) (r : Route) :
  (∀ f, f ∈ F → f ∈ F') →
  forallb (fun f => f r) F' = true → forallb (fun f => f r) F = true.
Proof.
  intros Hsub H. apply forallb_filters. intros f Hf.
  apply (proj1 (forallb_filters F' r) H). by apply Hsub.
Qed.

Lemma select_same (cache : interfaceCache) (F F' : list FilterOption)
    (row : MibIPforwardRow2) :
  (∀ f, f ∈ F ↔ f ∈ F') → select cache F row = select cache F' row.
Proof.
  intros Hsame. unfold select.
  destruct (byLUID cache !! InterfaceLUID row) as [iface|]; [|done].
  cbv zeta.
  pose proof (forallb_filters_mono F F' (enrich row iface) (fun f => proj1 (Hsame f)))
    as H1.
  pose proof (forallb_filters_mono F' F (enrich row iface) (fun f => proj2 (Hsame f)))
    as H2.
  destruct (forallb (fun f => f (enrich row iface)) F),
           (forallb (fun f => f (enrich row iface)) F'); try done.
  - by specialize (H2 eq_refl).
  - by specialize (H1 eq_refl).
Qed.

Lemma select_same_filters (cache : interfaceCache) (F F' : list FilterOption)
    (rows : list MibIPforwardRow2) :
  (∀ f, f ∈ F ↔ f ∈ F') →
  omap (select cache F) rows = omap (select cache F') rows.
Proof.
  intros Hsame. induction rows as [|row rest IH]; [done|]. csimpl.
  by rewrite IH, (select_same cache F F' row Hsame).
Qed.

Lemma omap_select_length (cache : interfaceCache) (F : list FilterOption)
    (rows : list MibIPforwardRow2) :
  (length (omap (select cache F) rows) ≤ length rows)%nat.
Proof.
  induction rows as [|row rest IH]; [done|]. csimpl.
  destruct (select cache F row); simpl; lia.
Qed.

Section GetRoutesMore.

Context {World : Type} (os : OS World).
Variable ToLower : string -> string.

(** The three possible runs of [GetRoutes]. *)
Lemma GetRoutes_cases (filters : list FilterOption) (s : St World) :
  (∃ e, os_GetAdaptersAddresses os (world s) = Err e
        ∧ GetRoutes os ToLower filters s =
            (Err (ErrorfW "failed to build interface cache: %w" []
                    (ErrorfW "failed to get adapters addresses: %w" [] e)),
             mkSt (world s) (trace s ++ [CallGetAdaptersAddresses])))
  ∨ (∃ adapters e,
       os_GetAdaptersAddresses os (world s) = Ok adapters
       ∧ os_GetIPForwardTable2 os (world s) = Err e
       ∧ GetRoutes os ToLower filters s =
           (Err (ErrorfW "failed to get base routing table: %w" [] e),
            mkSt (world s)
                 (trace s ++ [CallGetAdaptersAddresses; CallGetIPForwardTable2])))
  ∨ (∃ adapters baseRoutes,
       os_GetAdaptersAddresses os (world s) = Ok adapters
       ∧ os_GetIPForwardTable2 os (world s) = Ok baseRoutes
       ∧ GetRoutes os ToLower filters s =
           (Ok (omap (select (build_cache ToLower adapters) filters) baseRoutes),
            mkSt (world s)
                 (trace s ++ [CallGetAdaptersAddresses; CallGetIPForwardTable2]))).
Proof.
  destruct (os_GetAdaptersAddresses os (world s)) as [adapters|e] eqn:Ha.
  - destruct (os_GetIPForwardTable2 os (world s)) as [baseRoutes|e] eqn:Hb.
    + right. right. exists adapters, baseRoutes. repeat split; try done.
      by apply GetRoutes_run.
    + right. left. exists adapters, e. repeat split; try done.
      unfold GetRoutes, bind. rewrite (newInterfaceCache_run os ToLower s adapters Ha).
      unfold call_GetIPForwardTable2, log, ret; simpl. by rewrite Hb, <- app_assoc.
  - left. exists e. split; [done|].
    unfold GetRoutes, bind, newInterfaceCache, bind, call_GetAdaptersAddresses, log.
    by rewrite Ha.
Qed.

End GetRoutesMore.

Section GetRoutesProperties.

Context {World : Type} (os : OS World).
Variable ToLower : string -> string.

(** X6.  A failed OS query aborts [GetRoutes] with no routes.  When the
    adapter query fails, the routing table is never queried and the error
    wraps the OS error twice; when the table query fails, the error wraps
    it once.  Either way [errors.Is] still sees the OS error code through
    the returned error. *)
Theorem GetRoutes_query_failure (filters : list FilterOption) (s : St World) :
  (∀ e, os_GetAdaptersAddresses os (world s) = Err e →
        GetRoutes os ToLower filters s =
          (Err (ErrorfW "failed to build interface cache: %w" []
                  (ErrorfW "failed to get adapters addresses: %w" [] e)),
           mkSt (world s) (trace s ++ [CallGetAdaptersAddresses])))
  ∧ (∀ adapters e,
       os_GetAdaptersAddresses os (world s) = Ok adapters →
       os_GetIPForwardTable2 os (world s) = Err e →
       GetRoutes os ToLower filters s =
         (Err (ErrorfW "failed to get base routing table: %w" [] e),
          mkSt (world s)
               (trace s ++ [CallGetAdaptersAddresses; CallGetIPForwardTable2])))
  ∧ (∀ err, fst (GetRoutes os ToLower filters s) = Err err →
            ∃ e, (os_GetAdaptersAddresses os (world s) = Err e
                  ∨ os_GetIPForwardTable2 os (world s) = Err e)
                 ∧ ∀ code, errors_Is_Errno err code = errors_Is_Errno e code).
Proof.
  destruct (GetRoutes_cases os ToLower filters s)
    as [(e & Ha & Hrun)|[(adapters & e & Ha & Hb & Hrun)|(adapters & rows & Ha & Hb & Hrun)]];
    rewrite Hrun; (split; [|split]).
  - intros e' He'. congruence.
  - intros adapters e' Ha'. congruence.
  - intros err [= <-]. exists e. split; [by left | done].
  - intros e' He'. congruence.
  - intros adapters' e' Ha' Hb'. congruence.
  - intros err [= <-]. exists e. split; [by right | done].
  - intros e' He'. congruence.
  - intros adapters' e' Ha' Hb'. congruence.
  - intros err [=].
Qed.

(** X7.  [GetRoutes] only reads: whatever the filters and the OS answers,
    it leaves the world as it was and makes the adapter query, followed or
    not by the table query, and no other OS call. *)
Theorem GetRoutes_read_only (filters : list FilterOption) (s : St World) :
  world (snd (GetRoutes os ToLower filters s)) = world s
  ∧ (trace (snd (GetRoutes os ToLower filters s)) =
       trace s ++ [CallGetAdaptersAddresses]
     ∨ trace (snd (GetRoutes os ToLower filters s)) =
         trace s ++ [CallGetAdaptersAddresses; CallGetIPForwardTable2]).
Proof.
  destruct (GetRoutes_cases os ToLower filters s)
    as [(e & Ha & Hrun)|[(adapters & e & Ha & Hb & Hrun)|(adapters & rows & Ha & Hb & Hrun)]];
    rewrite Hrun; simpl; split; auto.
Qed.

(** X8.  Filters compose: the routes for the filters [F] followed by [G]
    are the routes for [F] that every filter of [G] accepts, in the same
    order, and a listing error does not depend on the filters.  The OS
    calls are the same. *)
Theorem GetRoutes_filters_compose (F G : list FilterOption) (s : St World) :
  fst (GetRoutes os ToLower (F ++ G) s) =
    match fst (GetRoutes os ToLower F s) with
    | Ok routes => Ok (List.filter (fun r => forallb (fun f => f r) G) routes)
    | Err err => Err err
    end
  ∧ snd (GetRoutes os ToLower (F ++ G) s) = snd (GetRoutes os ToLower F s).
Proof.
  destruct (GetRoutes_cases os ToLower F s)
    as [(e & Ha & Hrun)|[(adapters & e & Ha & Hb & Hrun)|(adapters & rows & Ha & Hb & Hrun)]];
    destruct (GetRoutes_cases os ToLower (F ++ G) s)
      as [(e' & Ha' & Hrun')|[(adapters' & e' & Ha' & Hb' & Hrun')
                             |(adapters' & rows' & Ha' & Hb' & Hrun')]];
    rewrite Hrun, Hrun'; simpl; try congruence.
  - split; congruence.
  - split; congruence.
  - assert (adapters' = adapters) as -> by congruence.
    assert (rows' = rows) as -> by congruence.
    by rewrite omap_select_app.
Qed.

End GetRoutesProperties.

Section GetRoutesFilters.

Context {World : Type} (os : OS World).
Variable ToLower : string -> string.
Variable EqualFold : string -> string -> bool.

(** X9.  Only the set of filters matters: two filter lists with the same
    elements, in whatever order and with whatever repetitions, give the
    same result and the same OS calls. *)
Theorem GetRoutes_filter_set (F F' : list FilterOption) (s : St World) :
  (∀ f, f ∈ F ↔ f ∈ F') →
  GetRoutes os ToLower F s = GetRoutes os ToLower F' s.
Proof.
  intros Hsame.
  destruct (GetRoutes_cases os ToLower F s)
    as [(e & Ha & Hrun)|[(adapters & e & Ha & Hb & Hrun)|(adapters & rows & Ha & Hb & Hrun)]];
    destruct (GetRoutes_cases os ToLower F' s)
      as [(e' & Ha' & Hrun')|[(adapters' & e' & Ha' & Hb' & Hrun')
                             |(adapters' & rows' & Ha' & Hb' & Hrun')]];
    rewrite Hrun, Hrun'; try congruence.
  assert (adapters' = adapters) as -> by congruence.
  assert (rows' = rows) as -> by congruence.
  by rewrite (select_same_filters _ F F' rows Hsame).
Qed.

(** X10.  What the four built-in filters guarantee: every route returned
    by [GetRoutes] has exactly the destination prefix of each
    [WithDestinationPrefix] filter passed, the interface index of each
    [WithInterfaceIndex], the metric of each [WithMetric], and an
    interface alias that [strings.EqualFold] equates with that of each
    [WithInterfaceAlias]. *)
Theorem GetRoutes_builtin_filters (F : list FilterOption) (s : St World)
    (routes : list Route) (r : Route) :
  fst (GetRoutes os ToLower F s) = Ok routes → r ∈ routes →
  (∀ p, WithDestinationPrefix p ∈ F → Destination r = p)
  ∧ (∀ i, WithInterfaceIndex i ∈ F → Index (ptr_obj (RInterface r)) = i)
  ∧ (∀ m, WithMetric m ∈ F → Metric r = m)
  ∧ (∀ alias, WithInterfaceAlias EqualFold alias ∈ F →
              EqualFold (Alias (ptr_obj (RInterface r))) alias = true).
Proof.
  intros Hrun Hr.
  assert (∀ f, f ∈ F → f r = true) as Hall.
  { destruct (GetRoutes_cases os ToLower F s)
      as [(e & Ha & Hrun')|[(adapters & e & Ha & Hb & Hrun')
                           |(adapters & rows & Ha & Hb & Hrun')]];
      rewrite Hrun' in Hrun; simpl in Hrun; try discriminate.
    injection Hrun as <-. apply list_elem_of_omap in Hr as (row & _ & Hsel).
    by apply select_Some in Hsel as (iface & _ & _ & Hf). }
  split; [|split; [|split]].
  - intros p Hp. apply Prefix_eqb_eq. apply (Hall _ Hp).
  - intros i Hi. apply Z.eqb_eq. apply (Hall _ Hi).
  - intros m Hm. apply Z.eqb_eq. apply (Hall _ Hm).
  - intros alias Hal. apply (Hall _ Hal).
Qed.

(** X11.  [GetRoutes] never returns more routes than the OS table has
    rows: the capacity reserved for the result is never exceeded. *)
Theorem GetRoutes_capacity (F : list FilterOption) (s : St World)
    (baseRoutes : list MibIPforwardRow2) (routes : list Route) :
  os_GetIPForwardTable2 os (world s) = Ok baseRoutes →
  fst (GetRoutes os ToLower F s) = Ok routes →
  (length routes ≤ length baseRoutes)%nat.
Proof.
  intros Hb Hrun.
  destruct (GetRoutes_cases os ToLower F s)
    as [(e & Ha & Hrun')|[(adapters & e & Ha & Hb' & Hrun')
                         |(adapters & rows & Ha & Hb' & Hrun')]];
    rewrite Hrun' in Hrun; simpl in Hrun; try discriminate.
  injection Hrun as <-. assert (rows = baseRoutes) as -> by congruence.
  apply omap_select_length.
Qed.

End GetRoutesFilters.

Lemma GetRoutes_query_failure_witness :
  GetRoutes (Lab.os (Some (Errno ERROR_ACCESS_DENIED)) None) Sim.ToLower
            [WithMetric 10] Sim.s0 =
    (Err (ErrorfW "failed to build interface cache: %w" []
            (ErrorfW "failed to get adapters addresses: %w" []
               (Errno ERROR_ACCESS_DENIED))),
     mkSt Sim.w0 [CallGetAdaptersAddresses])
  ∧ GetRoutes (Lab.os None (Some (Errno ERROR_NOT_FOUND))) Sim.ToLower
              [WithMetric 10] Sim.s0 =
      (Err (ErrorfW "failed to get base routing table: %w" [] (Errno ERROR_NOT_FOUND)),
       mkSt Sim.w0 [CallGetAdaptersAddresses; CallGetIPForwardTable2]).
Proof.
  split.
  - apply (proj1 (GetRoutes_query_failure
                    (Lab.os (Some (Errno ERROR_ACCESS_DENIED)) None) Sim.ToLower
                    [WithMetric 10] Sim.s0)).
    reflexivity.
  - apply (proj1 (proj2 (GetRoutes_query_failure
                           (Lab.os None (Some (Errno ERROR_NOT_FOUND))) Sim.ToLower
                           [WithMetric 10] Sim.s0)) (Sim.adapters Sim.w0));
      reflexivity.
Defined.

Lemma GetRoutes_filter_set_witness :
  GetRoutes Sim.os Sim.ToLower [WithMetric 10; WithInterfaceIndex 5] Sim.s0 =
  GetRoutes Sim.os Sim.ToLower
            [WithInterfaceIndex 5; WithMetric 10; WithInterfaceIndex 5] Sim.s0.
Proof.
  apply (GetRoutes_filter_set Sim.os Sim.ToLower).
  intros f. rewrite !elem_of_cons, !elem_of_nil. tauto.
Defined.

Lemma GetRoutes_builtin_filters_witness :
  let r := enrich Sim.row4 (ptr_of 0 Sim.eth0) in
  Destination r = Sim.net 0 0 ∧ Index (ptr_obj (RInterface r)) = 5.
Proof.
  intros r.
  destruct (GetRoutes_builtin_filters Sim.os Sim.ToLower Lab.EqualFold
              [WithDestinationPrefix (Sim.net 0 0); WithInterfaceIndex 5] Sim.s0
              [r] r eq_refl)
    as (Hd & Hi & _).
  - apply elem_of_cons. by left.
  - split.
    + apply Hd. apply elem_of_cons. by left.
    + apply Hi. apply elem_of_cons. right. apply elem_of_cons. by left.
Defined.

Lemma GetRoutes_capacity_witness :
  (length [enrich Sim.row1 (ptr_of 0 Sim.eth0); enrich Sim.row3 (ptr_of 2 Sim.wifi);
           enrich Sim.row4 (ptr_of 0 Sim.eth0)] ≤ 4)%nat.
Proof.
  apply (GetRoutes_capacity Sim.os Sim.ToLower [] Sim.s0 (Sim.table Sim.w0));
    reflexivity.
Defined.

(** ** DeleteRoutes: what is deleted and what is reported *)

Section DeleteMore.

Context {World : Type} (os : OS World).
Variable ToLower : string -> string.

(** Whatever the policy, the loop issues deletions for a prefix of the
    routes, in order, and nothing else. *)
Lemma delete_loop_trace (errorAction : ErrorAction) (routes : list Route)
    (partialErrs : list error) (s : St World) :
  ∃ k, trace (snd (delete_loop os errorAction routes partialErrs s)) =
         trace s ++ take k (map delete_call routes).
Proof.
  revert partialErrs s. induction routes as [|r rest IH]; intros partialErrs [w tr]; simpl.
  - exists 0%nat. by rewrite app_nil_r.
  - unfold bind, Route_Delete, call_DeleteRoute, log; simpl.
    destruct (os_DeleteRoute os w _ _ _) as [w1 [delErr|]]; simpl.
    + destruct (errorAction =? ErrorActionStop).
      * exists 1%nat. done.
      * destruct (IH (partialErrs ++ [wrapDelErr r delErr])
                     (mkSt w1 (tr ++ [delete_call r]))) as [k Hk].
        exists (S k). fold (delete_call r). rewrite Hk. simpl. by rewrite <- app_assoc.
    + destruct (IH partialErrs (mkSt w1 (tr ++ [delete_call r]))) as [k Hk].
      exists (S k). fold (delete_call r). rewrite Hk. simpl. by rewrite <- app_assoc.
Qed.

(** A fatal result of the loop comes with a nil accumulated list. *)
Lemma delete_loop_fatal_nil (errorAction : ErrorAction) (routes : list Route)
    (partialErrs : list error) (s : St World) (err : error) :
  snd (fst (delete_loop os errorAction routes partialErrs s)) = Some err →
  fst (fst (delete_loop os errorAction routes partialErrs s)) = [].
Proof.
  revert partialErrs s. induction routes as [|r rest IH]; intros partialErrs [w tr]; simpl.
  - done.
  - unfold bind, Route_Delete, call_DeleteRoute, log; simpl.
    destruct (os_DeleteRoute os w _ _ _) as [w1 [delErr|]]; simpl.
    + destruct (errorAction =? ErrorActionStop); [done | apply IH].
    + apply IH.
Qed.

(** Under [ErrorActionStop] the loop never adds to the accumulated list. *)
Lemma delete_loop_stop_partial (routes : list Route) (partialErrs : list error)
    (s : St World) :
  fst (fst (delete_loop os ErrorActionStop routes partialErrs s)) = partialErrs
  ∨ fst (fst (delete_loop os ErrorActionStop routes partialErrs s)) = [].
Proof.
  revert s. induction routes as [|r rest IH]; intros [w tr]; simpl.
  - by left.
  - unfold bind, Route_Delete, call_DeleteRoute, log; simpl.
    destruct (os_DeleteRoute os w _ _ _) as [w1 [delErr|]]; simpl.
    + by right.
    + apply IH.
Qed.

(** When every deletion succeeds the loop returns what it started with,
    under any policy. *)
Lemma delete_loop_all_ok (errorAction : ErrorAction) (routes : list Route)
    (partialErrs : list error) (s : St World) :
  Forall (fun a => a = None) (fst (run_deletes os (world s) routes)) →
  delete_loop os errorAction routes partialErrs s =
    ((partialErrs, None),
     mkSt (snd (run_deletes os (world s) routes))
          (trace s ++ map delete_call routes)).
Proof.
  revert s. induction routes as [|r rest IH]; intros [w tr]; simpl.
  - intros _. by rewrite app_nil_r.
  - unfold bind, Route_Delete, call_DeleteRoute, log; simpl.
    destruct (os_DeleteRoute os w _ _ _) as [w1 e0]; simpl.
    destruct (run_deletes os w1 rest) as [es w'] eqn:Hrun; simpl.
    intros Hall. apply Forall_cons in Hall as [-> Hall]. simpl.
    fold (delete_call r).
    rewrite (IH (mkSt w1 (tr ++ [delete_call r]))); simpl.
    + rewrite Hrun. simpl. by rewrite <- app_assoc.
    + by rewrite Hrun.
Qed.

(** On a built cache, the deletion of a listed route is keyed by the
    fields of the row it was built from. *)
Lemma delete_calls_of_rows (adapters : list Adapter) (filters : list FilterOption)
    (rows : list MibIPforwardRow2) :
  map delete_call (omap (select (build_cache ToLower adapters) filters) rows) =
    map row_call (List.filter (selected (build_cache ToLower adapters) filters) rows).
Proof.
  induction rows as [|row rest IH]; [done|]. csimpl. unfold selected at 1.
  destruct (select (build_cache ToLower adapters) filters row) as [r|] eqn:Hsel;
    [|apply IH].
  simpl. rewrite IH. f_equal.
  apply select_Some in Hsel as (iface & Hl & -> & _).
  apply byLUID_entry in Hl as [HL _].
  unfold delete_call, row_call. simpl. by rewrite HL.
Qed.

End DeleteMore.

Section DeleteProperties.

Context {World : Type} (os : OS World).
Variable ToLower : string -> string.

(** X12.  When the listing fails, [DeleteRoutes] deletes nothing: it
    returns a nil accumulated list and the listing error wrapped as the
    fatal error, the world is unchanged and the only OS calls made are the
    queries of the listing. *)
Theorem DeleteRoutes_listing_failure (opts : list any) (filters : list FilterOption)
    (errorAction : ErrorAction) (s : St World) (err : error) :
  extractRouteParameters opts = (filters, errorAction, None) →
  fst (GetRoutes os ToLower filters s) = Err err →
  fst (DeleteRoutes os ToLower opts s) =
    ([], Some (ErrorfW "failed to find routes for deletion: %w" [] err))
  ∧ world (snd (DeleteRoutes os ToLower opts s)) = world s
  ∧ (trace (snd (DeleteRoutes os ToLower opts s)) =
       trace s ++ [CallGetAdaptersAddresses]
     ∨ trace (snd (DeleteRoutes os ToLower opts s)) =
         trace s ++ [CallGetAdaptersAddresses; CallGetIPForwardTable2]).
Proof.
  intros Hopts Hget. unfold DeleteRoutes. rewrite Hopts. unfold bind.
  destruct (GetRoutes_cases os ToLower filters s)
    as [(e & Ha & Hrun)|[(adapters & e & Ha & Hb & Hrun)|(adapters & rows & Ha & Hb & Hrun)]];
    rewrite Hrun in *; simpl in Hget; try discriminate;
    injection Hget as <-; simpl; auto.
Qed.

(** X13.  When both queries succeed and no row of the table is resolvable
    and accepted by every filter (an empty table included), [DeleteRoutes]
    returns no error of either kind and makes no deletion call. *)
Theorem DeleteRoutes_nothing_matched (opts : list any) (filters : list FilterOption)
    (errorAction : ErrorAction) (s : St World) (adapters : list Adapter)
    (baseRoutes : list MibIPforwardRow2) :
  extractRouteParameters opts = (filters, errorAction, None) →
  os_GetAdaptersAddresses os (world s) = Ok adapters →
  os_GetIPForwardTable2 os (world s) = Ok baseRoutes →
  (∀ row, row ∈ baseRoutes →
          selected (build_cache ToLower adapters) filters row = false) →
  DeleteRoutes os ToLower opts s =
    (([], None),
     mkSt (world s) (trace s ++ [CallGetAdaptersAddresses; CallGetIPForwardTable2])).
Proof.
  intros Hopts Ha Hb Hnone. unfold DeleteRoutes. rewrite Hopts. unfold bind.
  rewrite (GetRoutes_run os ToLower filters s adapters baseRoutes Ha Hb).
  assert (omap (select (build_cache ToLower adapters) filters) baseRoutes = []) as ->;
    [|done].
  clear Hb. induction baseRoutes as [|row rest IH]; [done|]. csimpl.
  pose proof (Hnone row ltac:(left)) as Hrow. unfold selected in Hrow.
  destruct (select (build_cache ToLower adapters) filters row); [done|].
  apply IH. intros row' Hrow'. apply Hnone. by right.
Qed.

(** X14.  When every deletion succeeds, [DeleteRoutes] returns no error of
    either kind under any policy, [ErrorActionStop] included, having
    attempted every listed route in order. *)
Theorem DeleteRoutes_all_succeed (opts : list any) (filters : list FilterOption)
    (errorAction : ErrorAction) (s s1 : St World) (routes : list Route)
    (answers : list (option error)) (w' : World) :
  extractRouteParameters opts = (filters, errorAction, None) →
  GetRoutes os ToLower filters s = (Ok routes, s1) →
  run_deletes os (world s1) routes = (answers, w') →
  Forall (fun a => a = None) answers →
  DeleteRoutes os ToLower opts s =
    (([], None), mkSt w' (trace s1 ++ map delete_call routes)).
Proof.
  intros Hopts Hget Hrun Hall. unfold DeleteRoutes. rewrite Hopts. unfold bind.
  rewrite Hget. destruct routes as [|r rest].
  - simpl in Hrun. injection Hrun as <- <-. unfold ret. destruct s1 as [w1 tr1].
    simpl. by rewrite app_nil_r.
  - rewrite delete_loop_all_ok; by rewrite Hrun.
Qed.

(** X15.  Only [ErrorActionStop] stops: with any other [ErrorAction]
    value, [DeleteRoutes] behaves exactly as with [ErrorActionContinue]. *)
Theorem DeleteRoutes_unknown_action_continues (opts opts' : list any)
    (filters : list FilterOption) (errorAction : ErrorAction) (s : St World) :
  extractRouteParameters opts = (filters, errorAction, None) →
  extractRouteParameters opts' = (filters, ErrorActionContinue, None) →
  errorAction ≠ ErrorActionStop →
  DeleteRoutes os ToLower opts s = DeleteRoutes os ToLower opts' s.
Proof.
  intros Hopts Hopts' Hne. unfold DeleteRoutes. rewrite Hopts, Hopts'. unfold bind.
  destruct (GetRoutes os ToLower filters s) as [[routes|err] s1]; [|done].
  destruct routes as [|r rest]; [done|].
  by rewrite !delete_loop_continue.
Qed.

(** X16.  [DeleteRoutes] deletes only what it listed: when both queries
    succeed, the OS calls after the listing are deletions of a prefix of
    the resolvable, filter-matching rows of the table, in table order, each
    keyed by the row's own interface LUID, destination and next hop; no
    other route is touched and no index is resolved again. *)
Theorem DeleteRoutes_deletes_only_listed (opts : list any)
    (filters : list FilterOption) (errorAction : ErrorAction) (s : St World)
    (adapters : list Adapter) (baseRoutes : list MibIPforwardRow2) :
  extractRouteParameters opts = (filters, errorAction, None) →
  os_GetAdaptersAddresses os (world s) = Ok adapters →
  os_GetIPForwardTable2 os (world s) = Ok baseRoutes →
  ∃ k, trace (snd (DeleteRoutes os ToLower opts s)) =
         trace s ++ [CallGetAdaptersAddresses; CallGetIPForwardTable2]
         ++ take k (map row_call
                        (List.filter (selected (build_cache ToLower adapters) filters)
                                     baseRoutes)).
Proof.
  intros Hopts Ha Hb. unfold DeleteRoutes. rewrite Hopts. unfold bind.
  rewrite (GetRoutes_run os ToLower filters s adapters baseRoutes Ha Hb).
  rewrite <- delete_calls_of_rows.
  destruct (omap (select (build_cache ToLower adapters) filters) baseRoutes)
    as [|r rest] eqn:Hroutes.
  - exists 0%nat. simpl. done.
  - destruct (delete_loop_trace os errorAction (r :: rest) []
                (mkSt (world s)
                      (trace s ++ [CallGetAdaptersAddresses; CallGetIPForwardTable2])))
      as [k Hk].
    exists k. rewrite Hk. simpl. by rewrite <- app_assoc.
Qed.

(** X17.  The two results of [DeleteRoutes] are never both set: whenever
    the fatal error is non-nil the accumulated list is nil, and under
    [ErrorActionStop] the accumulated list is always nil. *)
Theorem DeleteRoutes_fatal_or_partial (opts : list any) (s : St World) :
  (∀ err, snd (fst (DeleteRoutes os ToLower opts s)) = Some err →
          fst (fst (DeleteRoutes os ToLower opts s)) = [])
  ∧ (∀ filters, extractRouteParameters opts = (filters, ErrorActionStop, None) →
                fst (fst (DeleteRoutes os ToLower opts s)) = []).
Proof.
  split.
  - intros err. unfold DeleteRoutes.
    destruct (extractRouteParameters opts) as [[filters errorAction] [e|]]; [done|].
    unfold bind.
    destruct (GetRoutes os ToLower filters s) as [[routes|e] s1]; [|done].
    destruct routes as [|r rest]; [done|]. apply delete_loop_fatal_nil.
  - intros filters Hopts. unfold DeleteRoutes. rewrite Hopts. unfold bind.
    destruct (GetRoutes os ToLower filters s) as [[routes|e] s1]; [|done].
    destruct routes as [|r rest]; [done|].
    by destruct (delete_loop_stop_partial os (r :: rest) [] s1) as [->| ->].
Qed.

End DeleteProperties.

Lemma DeleteRoutes_listing_failure_witness :
  let os := Lab.os None (Some (Errno ERROR_ACCESS_DENIED)) in
  fst (DeleteRoutes os Sim.ToLower [AnyFilterOption (WithMetric 10)] Sim.s0) =
    ([], Some (ErrorfW "failed to find routes for deletion: %w" []
                 (ErrorfW "failed to get base routing table: %w" []
                    (Errno ERROR_ACCESS_DENIED))))
  ∧ world (snd (DeleteRoutes os Sim.ToLower [AnyFilterOption (WithMetric 10)] Sim.s0))
    = Sim.w0.
Proof.
  intros os.
  destruct (DeleteRoutes_listing_failure os Sim.ToLower
              [AnyFilterOption (WithMetric 10)] [WithMetric 10] ErrorActionContinue
              Sim.s0
              (ErrorfW "failed to get base routing table: %w" []
                 (Errno ERROR_ACCESS_DENIED)) eq_refl eq_refl)
    as (Hres & Hw & _).
  split; [exact Hres | exact Hw].
Defined.

Lemma DeleteRoutes_nothing_matched_witness :
  DeleteRoutes Sim.os Sim.ToLower [AnyFilterOption (WithMetric 99)] Sim.s0 =
    (([], None), mkSt Sim.w0 [CallGetAdaptersAddresses; CallGetIPForwardTable2]).
Proof.
  apply (DeleteRoutes_nothing_matched Sim.os Sim.ToLower
           [AnyFilterOption (WithMetric 99)] [WithMetric 99] ErrorActionContinue
           Sim.s0 (Sim.adapters Sim.w0) (Sim.table Sim.w0) eq_refl eq_refl eq_refl).
  intros row Hrow. simpl in Hrow.
  repeat (apply elem_of_cons in Hrow as [->|Hrow]; [reflexivity|]).
  by apply elem_of_nil in Hrow.
Defined.

Lemma DeleteRoutes_all_succeed_witness :
  let opts := [AnyFilterOption (WithInterfaceIndex 5); AnyErrorAction ErrorActionStop] in
  fst (DeleteRoutes Sim.os Sim.ToLower opts Sim.s0) = ([], None)
  ∧ Sim.table (world (snd (DeleteRoutes Sim.os Sim.ToLower opts Sim.s0)))
    = [Sim.row2; Sim.row3].
Proof.
  intros opts.
  erewrite (DeleteRoutes_all_succeed Sim.os Sim.ToLower opts [WithInterfaceIndex 5]
              ErrorActionStop Sim.s0);
    [| reflexivity | reflexivity | reflexivity | repeat constructor].
  split; reflexivity.
Defined.

Lemma DeleteRoutes_unknown_action_continues_witness :
  DeleteRoutes Sim.os Sim.ToLower
    [AnyFilterOption (WithMetric 10); AnyErrorAction 7] Sim.s0 =
  DeleteRoutes Sim.os Sim.ToLower [AnyFilterOption (WithMetric 10)] Sim.s0.
Proof.
  apply (DeleteRoutes_unknown_action_continues Sim.os Sim.ToLower _ _ [WithMetric 10] 7).
  - reflexivity.
  - reflexivity.
  - discriminate.
Defined.

Lemma DeleteRoutes_deletes_only_listed_witness :
  ∃ k, trace (snd (DeleteRoutes Sim.os Sim.ToLower
                     [AnyFilterOption (WithMetric 10); AnyErrorAction ErrorActionStop]
                     Sim.s0)) =
         [CallGetAdaptersAddresses; CallGetIPForwardTable2]
         ++ take k [row_call Sim.row1; row_call Sim.row3; row_call Sim.row4].
Proof.
  apply (DeleteRoutes_deletes_only_listed Sim.os Sim.ToLower
           [AnyFilterOption (WithMetric 10); AnyErrorAction ErrorActionStop]
           [WithMetric 10] ErrorActionStop Sim.s0 (Sim.adapters Sim.w0)
           (Sim.table Sim.w0));
    reflexivity.
Defined.

Lemma DeleteRoutes_fatal_or_partial_witness :
  fst (fst (DeleteRoutes Sim.os Sim.ToLower
              [AnyFilterOption (WithMetric 10); AnyErrorAction ErrorActionStop]
              Sim.s0)) = [].
Proof.
  apply (proj2 (DeleteRoutes_fatal_or_partial Sim.os Sim.ToLower
                  [AnyFilterOption (WithMetric 10); AnyErrorAction ErrorActionStop]
                  Sim.s0) [WithMetric 10]).
  reflexivity.
Defined.

(** ** AddRoute and DeleteRoute *)

Section SingleRoute.

Context {World : Type} (os : OS World).

(** X18.  [AddRoute] returns nil exactly when the index resolves and the
    OS add succeeds.  When the OS add fails, the error says the route
    already exists if [errors.Is] finds [ERROR_OBJECT_ALREADY_EXISTS] in
    the OS error and that the creation failed otherwise; in every failure
    [errors.Is] sees through the returned error the same OS error codes as
    in the error of the OS call that failed. *)
Theorem AddRoute_result (destination : Prefix) (nextHop : Addr)
    (ifaceIndex metric : Z) (s : St World) :
  (fst (AddRoute os destination nextHop ifaceIndex metric s) = None ↔
   ∃ luid, os_LUIDFromIndex os (world s) ifaceIndex = Ok luid
           ∧ snd (os_AddRoute os (world s) luid destination nextHop metric) = None)
  ∧ (∀ luid err,
       os_LUIDFromIndex os (world s) ifaceIndex = Ok luid →
       snd (os_AddRoute os (world s) luid destination nextHop metric) = Some err →
       fst (AddRoute os destination nextHop ifaceIndex metric s) =
         Some (if errors_Is_Errno err ERROR_OBJECT_ALREADY_EXISTS
               then ErrorfW "route to %s already exists: %w"
                            [ArgPrefix destination] err
               else ErrorfW "failed to create route: %w" [] err))
  ∧ (∀ e, fst (AddRoute os destination nextHop ifaceIndex metric s) = Some e →
          ∃ oserr,
            (os_LUIDFromIndex os (world s) ifaceIndex = Err oserr
             ∨ ∃ luid, os_LUIDFromIndex os (world s) ifaceIndex = Ok luid
                       ∧ snd (os_AddRoute os (world s) luid destination nextHop metric)
                         = Some oserr)
            ∧ ∀ code, errors_Is_Errno e code = errors_Is_Errno oserr code).
Proof.
  unfold AddRoute, bind, call_LUIDFromIndex, call_AddRoute, log.
  destruct (os_LUIDFromIndex os (world s) ifaceIndex) as [luid|rerr]; simpl.
  - destruct (os_AddRoute os (world s) luid destination nextHop metric)
      as [w [err|]] eqn:Hadd; simpl.
    + destruct (errors_Is_Errno err ERROR_OBJECT_ALREADY_EXISTS) eqn:His; simpl.
      * split; [|split].
        -- split; [done|]. intros (luid' & [= <-] & Hnone). rewrite Hadd in Hnone. done.
        -- intros luid' err' [= <-]. rewrite Hadd. intros [= <-]. by rewrite His.
        -- intros e [= <-]. exists err. split; [|done].
           right. exists luid. by rewrite Hadd.
      * split; [|split].
        -- split; [done|]. intros (luid' & [= <-] & Hnone). rewrite Hadd in Hnone. done.
        -- intros luid' err' [= <-]. rewrite Hadd. intros [= <-]. by rewrite His.
        -- intros e [= <-]. exists err. split; [|done].
           right. exists luid. by rewrite Hadd.
    + split; [|split].
      * split; [|done]. intros _. exists luid. by rewrite Hadd.
      * intros luid' err' [= <-]. by rewrite Hadd.
      * done.
  - split; [|split].
    + split; [done|]. by intros (luid & ? & _).
    + done.
    + intros e [= <-]. exists rerr. split; [by left | done].
Qed.

(** X19.  [DeleteRoute] makes no deletion call when the index does not
    resolve.  When the OS deletion fails with an error in which
    [errors.Is] finds [ERROR_NOT_FOUND], the returned error wraps the
    package's [ErrNotFound] in place of the OS error: [errors.Is] finds
    [ErrNotFound] in it and no OS error code.  Any other OS error is
    returned wrapped, and a successful deletion returns nil. *)
Theorem DeleteRoute_result (destination : Prefix) (nextHop : Addr)
    (ifaceIndex : Z) (s : St World) :
  (∀ err, os_LUIDFromIndex os (world s) ifaceIndex = Err err →
          DeleteRoute os destination nextHop ifaceIndex s =
            (Some (ErrorfW "failed to convert interface index to LUID: %w" [] err),
             mkSt (world s) (trace s ++ [CallLUIDFromIndex ifaceIndex])))
  ∧ (∀ luid,
       os_LUIDFromIndex os (world s) ifaceIndex = Ok luid →
       snd (DeleteRoute os destination nextHop ifaceIndex s) =
         mkSt (fst (os_DeleteRoute os (world s) luid destination nextHop))
              (trace s ++ [CallLUIDFromIndex ifaceIndex;
                           CallDeleteRoute luid destination nextHop])
       ∧ match snd (os_DeleteRoute os (world s) luid destination nextHop) with
         | None => fst (DeleteRoute os destination nextHop ifaceIndex s) = None
         | Some err =>
             if errors_Is_Errno err ERROR_NOT_FOUND then
               ∃ e, fst (DeleteRoute os destination nextHop ifaceIndex s) = Some e
                    ∧ e = ErrorfW "route to %s not found: %w"
                                  [ArgPrefix destination] ErrNotFound
                    ∧ errors_Is_ErrNotFound e = true
                    ∧ ∀ code, errors_Is_Errno e code = false
             else
               fst (DeleteRoute os destination nextHop ifaceIndex s) =
                 Some (ErrorfW "failed to delete route: %w" [] err)
         end).
Proof.
  unfold DeleteRoute, bind, call_LUIDFromIndex, call_DeleteRoute, log. split.
  - intros err Herr. by rewrite Herr.
  - intros luid Hluid. rewrite Hluid. simpl.
    destruct (os_DeleteRoute os (world s) luid destination nextHop) as [w [err|]]; simpl.
    + destruct (errors_Is_Errno err ERROR_NOT_FOUND); simpl.
      * split; [by rewrite <- app_assoc|]. eexists. repeat split.
      * split; [by rewrite <- app_assoc | done].
    + split; [by rewrite <- app_assoc | done].
Qed.

End SingleRoute.

Lemma AddRoute_result_witness :
  fst (AddRoute Sim.os (Sim.net 167772160 8) (Addr4 1) 5 10 Sim.s0) =
    Some (ErrorfW "route to %s already exists: %w" [ArgPrefix (Sim.net 167772160 8)]
            (Errno ERROR_OBJECT_ALREADY_EXISTS))
  ∧ fst (AddRoute Sim.os (Sim.net 1 8) (Addr4 9) 5 10 Sim.s0) = None.
Proof.
  split.
  - apply (proj1 (proj2 (AddRoute_result Sim.os (Sim.net 167772160 8) (Addr4 1) 5 10
                           Sim.s0)) 100 (Errno ERROR_OBJECT_ALREADY_EXISTS));
      reflexivity.
  - apply (proj1 (AddRoute_result Sim.os (Sim.net 1 8) (Addr4 9) 5 10 Sim.s0)).
    exists 100. split; reflexivity.
Defined.

Lemma DeleteRoute_result_witness :
  DeleteRoute Sim.os (Sim.net 1 8) (Addr4 9) 77 Sim.s0 =
    (Some (ErrorfW "failed to convert interface index to LUID: %w" []
             (Errno Sim.ERROR_FILE_NOT_FOUND)),
     mkSt Sim.w0 [CallLUIDFromIndex 77])
  ∧ ∃ e, fst (DeleteRoute Sim.os (Sim.net 1 8) (Addr4 9) 5 Sim.s0) = Some e
         ∧ e = ErrorfW "route to %s not found: %w" [ArgPrefix (Sim.net 1 8)] ErrNotFound
         ∧ errors_Is_ErrNotFound e = true
         ∧ ∀ code, errors_Is_Errno e code = false.
Proof.
  split.
  - apply (proj1 (DeleteRoute_result Sim.os (Sim.net 1 8) (Addr4 9) 77 Sim.s0)).
    reflexivity.
  - exact (proj2 (proj2 (DeleteRoute_result Sim.os (Sim.net 1 8) (Addr4 9) 5 Sim.s0)
                    100 eq_refl)).
Defined.

(** ** The command-line front end *)

Section CLIProperties.

Context {World : Type} (os : OS World).
Variable ToLower : string -> string.
Variable EqualFold : string -> string -> bool.
Variable ParsePrefix : string -> result Prefix.
Variable ParseAddr : string -> result Addr.

Lemma is_empty_true (s : string) : is_empty s = true ↔ s = EmptyString.
Proof. by destruct s. Qed.

(** The options built by [wroute delete] and what [extractRouteParameters]
    reads back from them. *)
Lemma deleteCmd_options_extract (f : DeleteFlags) (opts : list any) (n : Z) :
  deleteCmd_options EqualFold ParsePrefix f = Ok (opts, n) →
  Forall supported opts
  ∧ n = Z.of_nat (length (omap as_filter opts))
  ∧ 1 <= n
  ∧ extractRouteParameters opts =
      (omap as_filter opts,
       if df_stop_on_error f then ErrorActionStop else ErrorActionContinue,
       None).
Proof.
  unfold deleteCmd_options.
  destruct (negb (is_empty (df_destination f)));
    [destruct (ParsePrefix (df_destination f)) as [prefix|err]; [|done]|];
    destruct (0 <? df_if_index f), (negb (is_empty (df_if_alias f))),
             (df_metric_changed f), (df_stop_on_error f);
    simpl; try done; intros [= <- <-];
    (split; [repeat constructor|]); (split; [done|]); (split; [done|]); reflexivity.
Qed.

(** X20.  [wroute delete] refuses to run without a filter: with no
    destination, no alias, no metric given and an interface index of 0 (the
    flag's default, so [--if-index 0] counts as absent), it returns the
    at-least-one-filter error; and a destination that does not parse is
    reported whatever the other flags.  In both cases no OS call is made. *)
Theorem deleteCmd_rejects_before_os (f : DeleteFlags) (s : St World) :
  (df_destination f = EmptyString → df_if_index f <= 0 →
   df_if_alias f = EmptyString → df_metric_changed f = false →
   deleteCmd_RunE os ToLower EqualFold ParsePrefix f s =
     (([], Some (Errorf "at least one filter (--destination, --if-index, --if-alias, --metric) must be provided for deletion" [])), s))
  ∧ (∀ err, df_destination f ≠ EmptyString →
            ParsePrefix (df_destination f) = Err err →
            deleteCmd_RunE os ToLower EqualFold ParsePrefix f s =
              (([], Some (ErrorfW "invalid destination prefix '%s': %w"
                                  [ArgString (df_destination f)] err)), s)).
Proof.
  split.
  - intros Hd Hi Ha Hm. unfold deleteCmd_RunE, deleteCmd_options.
    rewrite Hd, Ha, Hm. simpl.
    assert ((0 <? df_if_index f) = false) as -> by (apply Z.ltb_ge; lia).
    done.
  - intros err Hd Herr. unfold deleteCmd_RunE, deleteCmd_options.
    destruct (is_empty (df_destination f)) eqn:He.
    + by apply is_empty_true in He.
    + simpl. by rewrite Herr.
Qed.

(** X21.  The options [wroute delete] hands to [DeleteRoutes] are always
    well formed: only [FilterOption] and [ErrorAction] values, at least one
    filter, as many filters as counted, and the policy [ErrorActionStop]
    exactly when [--stop-on-error] is set; so [DeleteRoutes] never returns
    the unsupported-option error to the command line and never runs without
    a filter. *)
Theorem deleteCmd_options_well_formed (f : DeleteFlags) (opts : list any) (n : Z) :
  deleteCmd_options EqualFold ParsePrefix f = Ok (opts, n) →
  Forall supported opts
  ∧ omap as_filter opts ≠ []
  ∧ n = Z.of_nat (length (omap as_filter opts))
  ∧ extractRouteParameters opts =
      (omap as_filter opts,
       if df_stop_on_error f then ErrorActionStop else ErrorActionContinue,
       None).
Proof.
  intros Hopts.
  destruct (deleteCmd_options_extract f opts n Hopts) as (Hsup & Hn & Hpos & Hext).
  repeat split; try done.
  intros Hnil. rewrite Hnil in Hn. simpl in Hn. lia.
Qed.

(** X22.  Without [--stop-on-error], [wroute delete] reports success
    whenever the listing succeeds: the accumulated errors of [DeleteRoutes]
    are dropped, so the command returns nil and logs nothing even when
    deletions failed. *)
Theorem deleteCmd_hides_partial_failures (f : DeleteFlags) (s : St World)
    (opts : list any) (n : Z) (adapters : list Adapter)
    (baseRoutes : list MibIPforwardRow2) :
  deleteCmd_options EqualFold ParsePrefix f = Ok (opts, n) →
  df_stop_on_error f = false →
  os_GetAdaptersAddresses os (world s) = Ok adapters →
  os_GetIPForwardTable2 os (world s) = Ok baseRoutes →
  fst (deleteCmd_RunE os ToLower EqualFold ParsePrefix f s) = ([], None).
Proof.
  intros Hopts Hstop Ha Hb.
  destruct (deleteCmd_options_extract f opts n Hopts) as (_ & _ & _ & Hext).
  rewrite Hstop in Hext.
  unfold deleteCmd_RunE. rewrite Hopts. unfold bind, DeleteRoutes. rewrite Hext.
  unfold bind. rewrite (GetRoutes_run os ToLower _ s adapters baseRoutes Ha Hb).
  destruct (omap _ baseRoutes) as [|r rest]; [done|].
  by rewrite delete_loop_continue.
Qed.

(** X23.  The OS calls of [wroute add] and [wroute delete-one]: none when
    the destination or the next hop does not parse (the world is then
    unchanged); otherwise the resolution of the interface index, followed,
    only when it succeeds, by a single add (delete) call for the resolved
    LUID and the parsed destination and next hop. *)
Theorem route_commands_os_calls (f : RouteFlags) (s : St World) :
  let add := addCmd_RunE os ParsePrefix ParseAddr f s in
  let del := deleteRouteCmd_RunE os ParsePrefix ParseAddr f s in
  ((∃ err, ParsePrefix (rf_destination f) = Err err
           ∨ ParseAddr (rf_next_hop f) = Err err)
   ∧ is_Some (fst add) ∧ snd add = s ∧ is_Some (fst del) ∧ snd del = s)
  ∨ (∃ destination nextHop,
       ParsePrefix (rf_destination f) = Ok destination
       ∧ ParseAddr (rf_next_hop f) = Ok nextHop
       ∧ ((∃ err, os_LUIDFromIndex os (world s) (rf_if_index f) = Err err
                  ∧ snd add = mkSt (world s)
                                   (trace s ++ [CallLUIDFromIndex (rf_if_index f)])
                  ∧ snd del = snd add)
          ∨ (∃ luid, os_LUIDFromIndex os (world s) (rf_if_index f) = Ok luid
                     ∧ trace (snd add) =
                         trace s ++ [CallLUIDFromIndex (rf_if_index f);
                                     CallAddRoute luid destination nextHop
                                                  (rf_metric f)]
                     ∧ trace (snd del) =
                         trace s ++ [CallLUIDFromIndex (rf_if_index f);
                                     CallDeleteRoute luid destination nextHop]))).
Proof.
  intros add del. subst add del. unfold addCmd_RunE, deleteRouteCmd_RunE.
  destruct (ParsePrefix (rf_destination f)) as [destination|err] eqn:Hd.
  2:{ left. split; [exists err; by left|]. by repeat split. }
  destruct (ParseAddr (rf_next_hop f)) as [nextHop|err] eqn:Hn.
  2:{ left. split; [exists err; by right|]. by repeat split. }
  right. exists destination, nextHop. split; [done|]. split; [done|].
  unfold AddRoute, DeleteRoute, bind, call_LUIDFromIndex, call_AddRoute,
    call_DeleteRoute, log.
  destruct (os_LUIDFromIndex os (world s) (rf_if_index f)) as [luid|err]; simpl.
  - right. exists luid. split; [done|].
    destruct (os_AddRoute os (world s) luid destination nextHop (rf_metric f))
      as [w1 [e1|]];
      destruct (os_DeleteRoute os (world s) luid destination nextHop) as [w2 [e2|]];
      simpl;
      try destruct (errors_Is_Errno e1 ERROR_OBJECT_ALREADY_EXISTS);
      try destruct (errors_Is_Errno e2 ERROR_NOT_FOUND);
      simpl; by rewrite <- !app_assoc.
  - left. exists err. by repeat split.
Qed.

End CLIProperties.

Lemma deleteCmd_rejects_before_os_witness :
  deleteCmd_RunE Sim.os Sim.ToLower Lab.EqualFold Lab.ParsePrefix
                 (mkDeleteFlags "" 0 "" false 0 true) Sim.s0 =
    (([], Some (Errorf "at least one filter (--destination, --if-index, --if-alias, --metric) must be provided for deletion" [])), Sim.s0)
  ∧ deleteCmd_RunE Sim.os Sim.ToLower Lab.EqualFold Lab.ParsePrefix
                   (mkDeleteFlags "10.0.0.0" 5 "" false 0 false) Sim.s0 =
      (([], Some (ErrorfW "invalid destination prefix '%s': %w" [ArgString "10.0.0.0"]
                    (Errorf "netip.ParsePrefix(%q): no '/'" [ArgString "10.0.0.0"]))),
       Sim.s0).
Proof.
  split.
  - apply (proj1 (deleteCmd_rejects_before_os Sim.os Sim.ToLower Lab.EqualFold
                    Lab.ParsePrefix (mkDeleteFlags "" 0 "" false 0 true) Sim.s0));
      simpl; (reflexivity || lia).
  - apply (proj2 (deleteCmd_rejects_before_os Sim.os Sim.ToLower Lab.EqualFold
                    Lab.ParsePrefix (mkDeleteFlags "10.0.0.0" 5 "" false 0 false)
                    Sim.s0)).
    + discriminate.
    + reflexivity.
Defined.

Lemma deleteCmd_options_well_formed_witness :
  extractRouteParameters
    [AnyFilterOption (WithDestinationPrefix (Sim.net 0 0));
     AnyFilterOption (WithMetric 10); AnyErrorAction ErrorActionStop] =
    ([WithDestinationPrefix (Sim.net 0 0); WithMetric 10], ErrorActionStop, None).
Proof.
  exact (proj2 (proj2 (proj2
    (deleteCmd_options_well_formed Lab.EqualFold Lab.ParsePrefix
       (mkDeleteFlags "0.0.0.0/0" 0 "" true 10 true) _ 2 eq_refl)))).
Defined.

Lemma deleteCmd_hides_partial_failures_witness :
  fst (deleteCmd_RunE Sim.os Sim.ToLower Lab.EqualFold Lab.ParsePrefix
                      (mkDeleteFlags "" 0 "" true 10 false) Sim.s0) = ([], None)
  ∧ length (fst (fst (DeleteRoutes Sim.os Sim.ToLower
                        [AnyFilterOption (WithMetric 10)] Sim.s0))) = 1%nat.
Proof.
  split; [|reflexivity].
  apply (deleteCmd_hides_partial_failures Sim.os Sim.ToLower Lab.EqualFold
           Lab.ParsePrefix (mkDeleteFlags "" 0 "" true 10 false) Sim.s0
           [AnyFilterOption (WithMetric 10)] 1 (Sim.adapters Sim.w0)
           (Sim.table Sim.w0));
    reflexivity.
Defined.

(** ** GetRoutes: shared interfaces and row locality *)

Section GetRoutesSharing.

Context {World : Type} (os : OS World).
Variable ToLower : string -> string.

(** X24.  Routes on the same interface share one [Interface] object: two
    routes returned by [GetRoutes] whose interfaces have the same LUID hold
    the same pointer. *)
Theorem GetRoutes_shared_interface (F : list FilterOption) (s : St World)
    (routes : list Route) (r1 r2 : Route) :
  fst (GetRoutes os ToLower F s) = Ok routes →
  r1 ∈ routes → r2 ∈ routes →
  LUID (ptr_obj (RInterface r1)) = LUID (ptr_obj (RInterface r2)) →
  RInterface r1 = RInterface r2.
Proof.
  intros Hrun H1 H2 HL.
  destruct (GetRoutes_cases os ToLower F s)
    as [(e & Ha & Hrun')|[(adapters & e & Ha & Hb & Hrun')
                         |(adapters & rows & Ha & Hb & Hrun')]];
    rewrite Hrun' in Hrun; simpl in Hrun; try discriminate.
  injection Hrun as <-.
  apply list_elem_of_omap in H1 as (row1 & _ & Hs1).
  apply list_elem_of_omap in H2 as (row2 & _ & Hs2).
  apply select_Some in Hs1 as (i1 & Hl1 & -> & _).
  apply select_Some in Hs2 as (i2 & Hl2 & -> & _).
  simpl in *.
  destruct (byLUID_entry ToLower adapters _ _ Hl1) as [HL1 _].
  destruct (byLUID_entry ToLower adapters _ _ Hl2) as [HL2 _].
  assert (InterfaceLUID row1 = InterfaceLUID row2) as Heq by congruence.
  rewrite Heq in Hl1. congruence.
Qed.

(** X25.  Listing is row by row: with the same adapters and filters, the
    result for a table that is the concatenation of two tables is the
    concatenation of the results for each. *)
Theorem GetRoutes_table_append (F : list FilterOption) (s s1 s2 : St World)
    (adapters : list Adapter) (rows1 rows2 : list MibIPforwardRow2)
    (routes1 routes2 : list Route) :
  os_GetAdaptersAddresses os (world s) = Ok adapters →
  os_GetAdaptersAddresses os (world s1) = Ok adapters →
  os_GetAdaptersAddresses os (world s2) = Ok adapters →
  os_GetIPForwardTable2 os (world s) = Ok (rows1 ++ rows2) →
  os_GetIPForwardTable2 os (world s1) = Ok rows1 →
  os_GetIPForwardTable2 os (world s2) = Ok rows2 →
  fst (GetRoutes os ToLower F s1) = Ok routes1 →
  fst (GetRoutes os ToLower F s2) = Ok routes2 →
  fst (GetRoutes os ToLower F s) = Ok (routes1 ++ routes2).
Proof.
  intros Ha Ha1 Ha2 Hb Hb1 Hb2.
  rewrite (GetRoutes_run os ToLower F s _ _ Ha Hb),
          (GetRoutes_run os ToLower F s1 _ _ Ha1 Hb1),
          (GetRoutes_run os ToLower F s2 _ _ Ha2 Hb2).
  simpl. intros [= <-] [= <-]. by rewrite omap_app.
Qed.

End GetRoutesSharing.

Lemma GetRoutes_shared_interface_witness :
  RInterface (enrich Sim.row1 (ptr_of 0 Sim.eth0))
  = RInterface (enrich Sim.row4 (ptr_of 0 Sim.eth0)).
Proof.
  apply (GetRoutes_shared_interface Sim.os Sim.ToLower [WithMetric 10] Sim.s0
           [enrich Sim.row1 (ptr_of 0 Sim.eth0); enrich Sim.row3 (ptr_of 2 Sim.wifi);
            enrich Sim.row4 (ptr_of 0 Sim.eth0)]).
  - reflexivity.
  - apply elem_of_cons. by left.
  - apply elem_of_cons. right. apply elem_of_cons. right. apply elem_of_cons. by left.
  - reflexivity.
Defined.

Lemma GetRoutes_table_append_witness :
  let w1 := Sim.mkWorld (Sim.adapters Sim.w0) [Sim.row1; Sim.row2] [] in
  let w2 := Sim.mkWorld (Sim.adapters Sim.w0) [Sim.row3; Sim.row4] [] in
  fst (GetRoutes Sim.os Sim.ToLower [WithMetric 10] Sim.s0) =
    Ok ([enrich Sim.row1 (ptr_of 0 Sim.eth0)]
        ++ [enrich Sim.row3 (ptr_of 2 Sim.wifi); enrich Sim.row4 (ptr_of 0 Sim.eth0)]).
Proof.
  intros w1 w2.
  apply (GetRoutes_table_append Sim.os Sim.ToLower [WithMetric 10] Sim.s0
           (mkSt w1 []) (mkSt w2 []) (Sim.adapters Sim.w0)
           [Sim.row1; Sim.row2] [Sim.row3; Sim.row4]);
    reflexivity.
Defined.
